(** * pystachio composite records: a shallow embedding of [pystachio/composite.py]

    The development follows the source file top to bottom: the [Empty]
    sentinel, [TypeSignature], the [Structural] class with its schema
    ([TYPEMAP]), construction ([apply]), functional update ([__call__]),
    [check], [scopes], [interpolate], the JSON loaders and [find].

    Python dictionaries are association lists kept in iteration order; the
    dictionaries that the code mutates in place ([frozendict] instances held
    in [_value]) live in an explicit store and are referred to by address.
    Exceptions are the [Raise] branch of a result type. *)

From stdpp Require Import base option list strings gmap sorting.

Set Warnings "-clear-no-such-hyp".

Set Default Proof Using "Type".

(** ** Python dictionaries, in iteration order *)

Module Dict.
Section dict.
Context {V : Type}.

Definition t := list (string * V).

(** [d[k]], [None] standing for [KeyError]. *)
Fixpoint get (k : string) (d : list (string * V)) : option V :=
  match d with
  | [] => None
  | (k', v) :: d' => if decide (k = k') then Some v else get k d'
  end.

(** [k in d] *)
Definition mem (k : string) (d : list (string * V)) : bool :=
  bool_decide (is_Some (get k d)).

(** [d[k] = v]: an existing key keeps its place, a new key goes last. *)
Fixpoint set (k : string) (v : V) (d : list (string * V)) : list (string * V) :=
  match d with
  | [] => [(k, v)]
  | (k', v') :: d' =>
      if decide (k = k') then (k, v) :: d' else (k', v') :: set k v d'
  end.

(** [dict(items)] *)
Definition of_items (items : list (string * V)) : list (string * V) :=
  foldl (λ d kv, set kv.1 kv.2 d) [] items.

Definition keys (d : list (string * V)) : list string := d.*1.
End dict.
Global Arguments t : clear implicits.
End Dict.

(** ** Results of calls that may raise *)

(** [TypeError function argument] is the error of a call that gives a
    parameter twice, "function() got multiple values for keyword argument
    'argument'". *)
Inductive Exception : Type :=
| AttributeError (msg : string)
| TypeError (function argument : string)
| ValueError (msg : string)
| KeyError (key : string)
| CoercionError (msg : string)
| NamingError
| NotFound
| Unnamable.

Inductive Exc (A : Type) : Type :=
| Return (a : A)
| Raise (e : Exception).
Global Arguments Return {A} a.
Global Arguments Raise {A} e.

Definition is_Return {A} (r : Exc A) : Prop := ∃ a, r = Return a.
Definition is_Raise {A} (r : Exc A) : Prop := ∃ e, r = Raise e.

Global Instance Exception_eq_dec : EqDecision Exception.
Proof. solve_decision. Defined.

(** Modelled from the spec: [TypeCheck] of [typing.py], which is not part
    of [composite.py]: a check result is a success, or a failure with its
    message ([TypeCheck.success()], [TypeCheck.failure(msg)], [ok()],
    [message()]). *)
Inductive TypeCheck : Type :=
| success
| failure (msg : string).

Definition ok (tc : TypeCheck) : bool :=
  match tc with success => true | failure _ => false end.

Definition message (tc : TypeCheck) : string :=
  match tc with success => EmptyString | failure msg => msg end.

(** ** The collaborators of [composite.py]

    [composite.py] imports [Object] and [Environment] from [base.py],
    [Namable] and [Ref] from [naming.py] and [TypeFactory] from
    [typing.py].  The field values of a composite are instances of
    subclasses of [Object]; the composite only ever reaches them through the
    methods below, so they are taken as an interface. *)

(** Modelled from the spec: [Ref] of [naming.py], which is not part of
    [composite.py]: a path of components, each a dereference ([.name]) or
    an index ([[value]]).  [Structural.find] reads the first component
    through [is_dereference()] and [action()], and the others through
    [rest()] and [is_empty()]; a path given to [find] has a first
    component. *)
Inductive Component : Type :=
| Dereference (value : string)
| Index (value : string).

Record Ref : Type := MkRef { action : Component; rest : list Component }.

Definition is_dereference (ref : Ref) : bool :=
  match action ref with Dereference _ => true | Index _ => false end.

Definition action_value (ref : Ref) : string :=
  match action ref with Dereference v => v | Index v => v end.

Definition is_empty (components : list Component) : bool :=
  match components with [] => true | _ :: _ => false end.

Class ObjectModel : Type := {
  (** subclasses of [Object]: what a schema wraps *)
  Klazz : Type;
  (** instances of subclasses of [Object]: the field values *)
  Obj : Type;
  (** plain Python data: what [get()] returns and [json.load] produces *)
  Raw : Type;
  (** scope frames ([Namable] things an object is placed in) *)
  Frame : Type;
  (** what [serialize_type()] returns *)
  TypeDescr : Type;
  TypeDescr_eq_dec :: EqDecision TypeDescr;
  (** the registry handed to [TypeFactory.new] *)
  TypeDict : Type;
  (** [isinstance(o, klazz)] *)
  isinstance : Obj → Klazz → bool;
  (** [klazz(value)] on a value that is not [Empty] *)
  new : Klazz → Raw + Obj → Exc Obj;
  (** [o.get()] *)
  get : Obj → Raw;
  (** the empty tuple [()] *)
  raw_unit : Raw;
  (** [repr(value)] *)
  repr : Raw + Obj → string;
  (** [a == b] on objects *)
  obj_eq : Obj → Obj → bool;
  (** [o.in_scope] applied to the frames *)
  in_scope : Obj → list Frame → Obj;
  (** [o.check()] *)
  obj_check : Obj → TypeCheck;
  (** [o.interpolate()] *)
  obj_interpolate : Obj → Obj * list string;
  (** [isinstance(o, Namable)] and [o.find(ref)] *)
  is_Namable : Obj → bool;
  obj_find : Obj → Ref → Exc Obj;
  (** [Environment(mapping)] *)
  Environment : list (string * Obj) → Frame;
  (** [klazz.serialize_type()] and [TypeFactory.new(type_dict, *descr)] *)
  serialize_type : Klazz → TypeDescr;
  TypeFactory_new : TypeDict → TypeDescr → Exc Klazz;
}.

(** What the composite relies on: an object built by a class is an instance
    of it, and placing an object in a scope or interpolating it yields an
    object of the same classes. *)
Class ObjectLaws `{OM : ObjectModel} : Prop := {
  new_isinstance k v o : new k v = Return o → isinstance o k = true;
  in_scope_isinstance o fs k : isinstance (in_scope o fs) k = isinstance o k;
  interpolate_isinstance o k :
    isinstance (obj_interpolate o).1 k = isinstance o k;
}.

(** The store of dictionaries (see below), as an abbreviation. *)
Abbreviation store := (list (list (string * option Obj))).

Section composite.
Context {OM : ObjectModel}.

(** A Python value handed to the composite: the [Empty] sentinel, an
    [Object] instance, or plain data. *)
Inductive pyvalue : Type :=
| Empty
| PyObj (o : Obj)
| PyRaw (r : Raw).

Definition unEmpty (v : pyvalue) : option (Raw + Obj) :=
  match v with
  | Empty => None
  | PyObj o => Some (inr o)
  | PyRaw r => Some (inl r)
  end.

(** ** [TypeSignature] *)

(** [_default] is [None] for the [Empty] sentinel. *)
Record TypeSignature : Type := MkTypeSignature {
  klazz : Klazz;
  required : bool;
  default : option Obj;
}.

(** [value if isinstance(value, cls) else cls(value)], the coercion that
    [TypeSignature.__init__] and [_process_schema_attribute] both perform on
    a value that is not [Empty]; plain data is never an instance of a
    subclass of [Object]. *)
Definition instance_or_new (cls : Klazz) (v : Raw + Obj) : Exc Obj :=
  match v with
  | inr o => if isinstance o cls then Return o else new cls v
  | inl _ => new cls v
  end.

(** [TypeSignature.__init__] *)
Definition TypeSignature_init (cls : Klazz) (required : bool) (default : pyvalue)
  : Exc TypeSignature :=
  match unEmpty default with
  | None => Return (MkTypeSignature cls required None)
  | Some v =>
      match instance_or_new cls v with
      | Return d => Return (MkTypeSignature cls required (Some d))
      | Raise e => Raise e
      end
  end.

(** the [empty] property *)
Definition empty (sig : TypeSignature) : bool :=
  match default sig with None => true | Some _ => false end.

(** The tuple [(required, default, empty, klazz_schema)]. *)
Record SerializedSignature : Type := MkSerialized {
  s_required : bool;
  s_default : Raw;
  s_empty : bool;
  s_klazz : TypeDescr;
}.

Definition serialize (sig : TypeSignature) : SerializedSignature :=
  {| s_required := required sig;
     s_default := match default sig with Some d => get d | None => raw_unit end;
     s_empty := empty sig;
     s_klazz := serialize_type (klazz sig) |}.

Definition deserialize (sig : SerializedSignature) (type_dict : TypeDict)
  : Exc TypeSignature :=
  match TypeFactory_new type_dict (s_klazz sig) with
  | Raise e => Raise e
  | Return real_class =>
      if negb (s_empty sig) then
        match new real_class (inl (s_default sig)) with
        | Raise e => Raise e
        | Return d => TypeSignature_init real_class (s_required sig) (PyObj d)
        end
      else TypeSignature_init real_class (s_required sig) Empty
  end.

(** [a == b] on [_default] slots: the sentinel equals only itself. *)
Definition default_eq (a b : option Obj) : bool :=
  match a, b with
  | Some x, Some y => obj_eq x y
  | None, None => true
  | _, _ => false
  end.

(** [TypeSignature.__eq__] *)
Definition TypeSignature_eq (self other : TypeSignature) : bool :=
  bool_decide (serialize_type (klazz self) = serialize_type (klazz other))
  && bool_decide (required self = required other)
  && default_eq (default self) (default other)
  && bool_decide (empty self = empty other).


(** ** The store

    [frozendict] of [naming.py] is used as a dictionary that can be
    assigned into: [_update_schema_data] does [value[attr] = ...] on it.
    Every dictionary held in a [_value] slot lives in the store, and a
    composite refers to it by address, so that two composites sharing one
    dictionary would see each other's assignments. *)

Definition M (A : Type) : Type := store → Exc A * store.

Definition ret {A} (a : A) : M A := λ σ, (Return a, σ).

Definition raise {A} (e : Exception) : M A := λ σ, (Raise e, σ).

Definition bind {A B} (m : M A) (k : A → M B) : M B :=
  λ σ, match m σ with
       | (Return a, σ') => k a σ'
       | (Raise e, σ') => (Raise e, σ')
       end.

Definition lift {A} (r : Exc A) : M A := λ σ, (r, σ).

(** a new dictionary object *)
Definition alloc (d : list (string * option Obj)) : M nat :=
  λ σ, (Return (length σ), σ ++ [d]).

Definition deref (σ : store) (a : nat) : list (string * option Obj) :=
  match σ !! a with Some d => d | None => [] end.

(** [a.items()] *)
Definition items (a : nat) : M (list (string * option Obj)) :=
  λ σ, (Return (deref σ a), σ).

(** [a[k]] *)
Definition getitem (a : nat) (k : string) : M (option Obj) :=
  λ σ, match Dict.get k (deref σ a) with
       | Some v => (Return v, σ)
       | None => (Raise (KeyError k), σ)
       end.

(** [a[k] = v] *)
Definition setitem (a : nat) (k : string) (v : option Obj) : M unit :=
  λ σ, (Return (), alter (Dict.set k v) a σ).

Global Instance M_ret : MRet M := @ret.
Global Instance M_bind : MBind M := λ A B k m, bind m k.

(** ** [Structural] *)

(** A class built by [StructFactory.create]: its [__name__] and its
    [TYPEMAP], in the iteration order of the dictionary. *)
Record StructClass : Type := MkStructClass {
  __name__ : string;
  TYPEMAP : list (string * TypeSignature);
}.

(** [StructMetaclass.attributes_to_parameters], on the attributes that
    [TypeSignature.wrap] has turned into signatures. *)
Definition attributes_to_parameters (attributes : list (string * TypeSignature))
  : list (string * SerializedSignature) :=
  prod_map id serialize <$> attributes.

(** the generator [(attr, TypeSignature.deserialize(param, type_dict))] of
    [StructFactory.create], which stops at the first raise *)
Fixpoint deserialize_all (type_dict : TypeDict)
  (parameters : list (string * SerializedSignature))
  : Exc (list (string * TypeSignature)) :=
  match parameters with
  | [] => Return []
  | (attr, param) :: parameters' =>
      match deserialize param type_dict with
      | Raise e => Raise e
      | Return sig =>
          match deserialize_all type_dict parameters' with
          | Raise e => Raise e
          | Return typemap => Return ((attr, sig) :: typemap)
          end
      end
  end.

Definition StructFactory_create (type_dict : TypeDict) (name : string)
  (parameters : list (string * SerializedSignature)) : Exc StructClass :=
  match deserialize_all type_dict parameters with
  | Raise e => Raise e
  | Return typemap => Return (MkStructClass name (Dict.of_items typemap))
  end.

(** An instance: its class, the address of its [_value] dictionary and the
    outer frames it was placed in. *)
Record Structural : Type := MkStructural {
  __class__ : StructClass;
  _value : nat;
  _scopes : list Frame;
}.

(** What a positional argument of [apply] can be. *)
Inductive argument : Type :=
| Mapping (kw : list (string * pyvalue))
| NotMapping (v : Raw + Obj).

Definition _process_schema_attribute (cls : StructClass) (attr : string)
  (value : pyvalue) : Exc (option Obj) :=
  match Dict.get attr (TYPEMAP cls) with
  | None => Raise (AttributeError ("Unknown schema attribute " +:+ attr))
  | Some schema_type =>
      match unEmpty value with
      | None => Return None
      | Some v =>
          match instance_or_new (klazz schema_type) v with
          | Return o => Return (Some o)
          | Raise e => Raise e
          end
      end
  end.

(** ** Calls with keyword arguments

    The overrides travel as keyword arguments, [**arg] and [**kw], into
    [_update_schema_data], [apply] and [__call__].  Python binds a keyword
    to the parameter of that name, and a keyword naming a parameter that a
    positional argument (the receiver or the class included) has filled
    makes the call raise [TypeError] before the body runs.  [clash] is the
    first such name in the iteration order of the keywords. *)
Definition clash {A} (params : list string) (kw : list (string * A))
  : option string :=
  head (filter (λ name, name ∈ params) kw.*1).

(** the call of [function], whose positional parameters are [params],
    with the keywords [kw]: [body] is what the function does once its
    parameters are bound *)
Definition keywords {A B} (function : string) (params : list string)
  (kw : list (string * A)) (body : M B) : M B :=
  match clash params kw with
  | Some argument => raise (TypeError function argument)
  | None => body
  end.

(** the loop [for attr, val in kw.items()] of [_update_schema_data] *)
Fixpoint update_loop (cls : StructClass) (value : nat)
  (kw : list (string * pyvalue)) : M unit :=
  match kw with
  | [] => ret ()
  | (attr, val) :: kw' =>
      v ← lift (_process_schema_attribute cls attr val);
      setitem value attr v;;
      update_loop cls value kw'
  end.

(** [_update_schema_data(cls, value, **kw)] *)
Definition _update_schema_data (cls : StructClass) (value : nat)
  (kw : list (string * pyvalue)) : M unit :=
  keywords "_update_schema_data" ["cls"; "value"] kw (update_loop cls value kw).

(** the loop [for arg in args] of [apply] *)
Fixpoint apply_args (cls : StructClass) (value : nat) (args : list argument)
  : M unit :=
  match args with
  | [] => ret ()
  | NotMapping v :: _ =>
      raise (ValueError ("Expected dictionary argument, got " +:+ repr v))
  | Mapping arg :: args' =>
      _update_schema_data cls value arg;;
      apply_args cls value args'
  end.

(** [apply(cls, *args, **kw)] *)
Definition apply (cls : StructClass) (args : list argument)
  (kw : list (string * pyvalue)) : M nat :=
  keywords "apply" ["cls"] kw
    (value ← alloc (Dict.of_items (prod_map id default <$> TYPEMAP cls));
     apply_args cls value args;;
     _update_schema_data cls value kw;;
     ret value).

(** [unapply]: the present fields, as plain data *)
Definition unapply (value : list (string * option Obj)) : list (string * Raw) :=
  omap (λ kv, (λ v, (kv.1, get v)) <$> kv.2) value.

(** Modelled from the spec: [Object.__init__] of [base.py], which is not
    part of [composite.py].  A composite is created by construction, its
    field mapping being the result of [apply] on the arguments, with no
    outer frame attached.  The constructor takes the overrides the way
    [apply] does, after its receiver [self], so a keyword called [self] is
    refused by the call like the keywords of the functions above. *)
Definition Structural_new (cls : StructClass) (args : list argument)
  (kw : list (string * pyvalue)) : M Structural :=
  keywords "__init__" ["self"] kw
    (value ← apply cls args kw;
     ret (MkStructural cls value [])).

(** Modelled from the spec: [Object.copy] of [base.py], which is not part
    of [composite.py].  The copy is a new composite of the same class
    holding a copy of the current mapping and the same outer frames. *)
Definition copy (self : Structural) : M Structural :=
  d ← items (_value self);
  value ← alloc d;
  ret (MkStructural (__class__ self) value (_scopes self)).

(** [__call__(self, **kw)] *)
Definition __call__ (self : Structural) (kw : list (string * pyvalue))
  : M Structural :=
  keywords "__call__" ["self"] kw
    (new_self ← copy self;
     _update_schema_data (__class__ self) (_value new_self) kw;;
     ret new_self).

(** equality of two dictionaries, [eqv] comparing the values *)
Definition dict_eq {V} (eqv : V → V → bool) (a b : list (string * V)) : bool :=
  bool_decide (length a = length b)
  && forallb (λ kv, match Dict.get kv.1 b with
                    | Some v' => eqv kv.2 v'
                    | None => false
                    end) a.

Definition scopes (self : Structural) : M (list Frame) :=
  d ← items (_value self);
  let self_scope :=
    Dict.of_items (omap (λ kv, (λ v, (kv.1, v)) <$> kv.2) d) in
  ret (Environment self_scope :: _scopes self).

(** the loop of [check] over [self.TYPEMAP.items()] *)
Fixpoint check_loop (self : Structural)
  (typemap : list (string * TypeSignature)) : M TypeCheck :=
  match typemap with
  | [] => ret success
  | (name, signature) :: typemap' =>
      v ← getitem (_value self) name;
      match v with
      | None =>
          if required signature then
            ret (failure (__name__ (__class__ self) +:+ "[" +:+ name
                          +:+ "] is required."))
          else check_loop self typemap'
      | Some o =>
          sc ← scopes self;
          let type_check := obj_check (in_scope o sc) in
          if ok type_check then check_loop self typemap'
          else ret (failure (__name__ (__class__ self) +:+ "[" +:+ name
                             +:+ "] failed: " +:+ message type_check))
      end
  end.

Definition check (self : Structural) : M TypeCheck :=
  check_loop self (TYPEMAP (__class__ self)).

(** one round of the loop of [interpolate]: the dictionary
    [interpolated_schema_data] and the set [unbound] after [key, value] *)
Definition interpolate_step (scopes : list Frame)
  (acc : list (string * pyvalue) * gset string) (kv : string * option Obj)
  : list (string * pyvalue) * gset string :=
  match kv.2 with
  | None => (Dict.set kv.1 Empty acc.1, acc.2)
  | Some value =>
      let '(vinterp, vunbound) := obj_interpolate (in_scope value scopes) in
      (Dict.set kv.1 (PyObj vinterp) acc.1, acc.2 ∪ list_to_set vunbound)
  end.

Definition interpolate (self : Structural) : M (Structural * list string) :=
  scopes ← scopes self;
  d ← items (_value self);
  let '(interpolated_schema_data, unbound) :=
    foldl (interpolate_step scopes) ([], ∅) d in
  new_self ← Structural_new (__class__ self) [] interpolated_schema_data;
  ret (new_self, elements unbound).

Definition interpolate_key (self : Structural) (attribute : string)
  : M (option Obj) :=
  v ← getitem (_value self) attribute;
  match v with
  | None => ret None
  | Some o =>
      sc ← scopes self;
      let '(vinterp, _) := obj_interpolate (in_scope o sc) in
      lift (_process_schema_attribute (__class__ self) attribute (PyObj vinterp))
  end.

(** What [other] can be in [self == other]. *)
Inductive pyobject : Type :=
| AStructural (other : Structural)
| NotAStructural (v : pyvalue).

Definition __eq__ (self : Structural) (other : pyobject) : M bool :=
  match other with
  | NotAStructural _ => ret false
  | AStructural other =>
      if negb (dict_eq TypeSignature_eq (TYPEMAP (__class__ self))
                 (TYPEMAP (__class__ other)))
      then ret false
      else
        si ← interpolate self;
        oi ← interpolate other;
        a ← items (_value si.1);
        b ← items (_value oi.1);
        ret (dict_eq default_eq a b)
  end.

(** What [json.load] can return: an object, or any other document. *)
Inductive parsed : Type :=
| JsonObject (values : list (string * Raw))
| JsonOther (r : Raw).

Definition _filter_against_schema (cls : StructClass)
  (values : list (string * Raw)) : list (string * Raw) :=
  Dict.of_items (filter (λ kv, Is_true (Dict.mem kv.1 (TYPEMAP cls))) values).

Definition json_loads (cls : StructClass) (doc : parsed) (strict : bool)
  : M Structural :=
  match doc with
  | JsonObject values =>
      let arg := if strict then values else _filter_against_schema cls values in
      Structural_new cls [Mapping (prod_map id PyRaw <$> arg)] []
  | JsonOther r =>
      if strict then Structural_new cls [NotMapping (inl r)] []
      else raise (AttributeError "items")
  end.

(** [json_load] differs from [json_loads] in reading the document from a
    stream. *)
Definition json_load (cls : StructClass) (doc : parsed) (strict : bool)
  : M Structural :=
  json_loads cls doc strict.

Definition find (self : Structural) (ref : Ref) : M Obj :=
  if negb (is_dereference ref) then raise NamingError
  else
    let name := action_value ref in
    if negb (Dict.mem name (TYPEMAP (__class__ self))) then raise NotFound
    else
      v ← getitem (_value self) name;
      match v with
      | None => raise NotFound
      | Some namable =>
          match rest ref with
          | [] => sc ← scopes self; ret (in_scope namable sc)
          | c :: cs =>
              if negb (is_Namable namable) then raise Unnamable
              else sc ← scopes self;
                   lift (obj_find (in_scope namable sc) (MkRef c cs))
          end
      end.

End composite.

(** ** A primitive field type: strings with placeholders

    The primitive value types and the scope frames belong to [basic.py] and
    [base.py], which are not part of [composite.py].  The module below
    models one primitive type, [String], from the specification, so that
    the composite can be run on concrete values and the resolution of
    placeholders, which the composite leaves to its fields, can be
    studied. *)

Module Mustache.

(** A string as the placeholder parser splits it: literal text and
    placeholders [{{name}}]. *)
Inductive piece : Type :=
| Lit (s : string)
| Var (name : string).

Global Instance piece_eq_dec : EqDecision piece.
Proof. solve_decision. Defined.

Definition render_piece (p : piece) : string :=
  match p with
  | Lit s => s
  | Var name => "{{" +:+ name +:+ "}}"
  end.

(** the text a list of pieces stands for *)
Definition render (t : list piece) : string :=
  foldr (λ p s, render_piece p +:+ s) EmptyString t.

Definition vars (t : list piece) : list string :=
  omap (λ p, match p with Var name => Some name | Lit _ => None end) t.

(** A frame binds names to strings; a [String] carries its text and the
    frames it has been placed in, innermost first. *)
Definition frame : Type := list (string * list piece).

Record String : Type := MkString {
  text : list piece;
  frames : list frame;
}.

(** the first frame of the chain that binds [name] wins *)
Fixpoint lookup (chain : list frame) (name : string) : option (list piece) :=
  match chain with
  | [] => None
  | f :: chain' =>
      match Dict.get name f with
      | Some t => Some t
      | None => lookup chain' name
      end
  end.

(** Modelled from the spec: the placeholder resolution of a primitive
    value, which is [interpolate] of [basic.py] and is not part of
    [composite.py].  A placeholder is replaced by the resolution of what
    the innermost frame binding its name holds; [active] are the names
    being resolved on the current call path, and a name met again while it
    is active, like a name no frame binds, is left in place and reported
    unbound.  [None] stands for recursion deeper than [fuel]. *)
Fixpoint resolve (fuel : nat) (chain : list frame) (active : list string)
  (t : list piece) : option (list piece * list string) :=
  match fuel with
  | 0 => None
  | S fuel' =>
      (fix pieces (t : list piece) : option (list piece * list string) :=
         match t with
         | [] => Some ([], [])
         | p :: t' =>
             r ← match p with
                 | Lit s => Some ([Lit s], [])
                 | Var name =>
                     if decide (name ∈ active) then Some ([Var name], [name])
                     else match lookup chain name with
                          | None => Some ([Var name], [name])
                          | Some bound =>
                              resolve fuel' chain (name :: active) bound
                          end
                 end;
             rs ← pieces t';
             Some (r.1 ++ rs.1, r.2 ++ rs.2)
         end) t
  end.

(** the resolution of one placeholder, as [resolve] performs it *)
Definition resolve_var (fuel : nat) (chain : list frame) (active : list string)
  (name : string) : option (list piece * list string) :=
  if decide (name ∈ active) then Some ([Var name], [name])
  else match lookup chain name with
       | None => Some ([Var name], [name])
       | Some bound => resolve fuel chain (name :: active) bound
       end.

(** [b] is a placeholder of what the chain binds to [a] *)
Definition depends (chain : list frame) (a b : string) : Prop :=
  ∃ t, lookup chain a = Some t ∧ b ∈ vars t.

(** [revisits chain active n r]: following the bindings of the chain from
    the placeholder [n], while the names of [active] are being resolved,
    leads back to the name [r] while [r] is itself being resolved. *)
Inductive revisits (chain : list frame) : list string → string → string → Prop :=
| revisits_now active n :
    n ∈ active → revisits chain active n n
| revisits_later active n m r :
    n ∉ active → depends chain n m → revisits chain (n :: active) m r →
    revisits chain active n r.

(** a path of placeholders, each bound to a string that mentions the next *)
Fixpoint chained (chain : list frame) (p : string) (ps : list string) : Prop :=
  match ps with
  | [] => True
  | q :: ps' => depends chain p q ∧ chained chain q ps'
  end.

(** the names the chain binds *)
Definition bound_names (chain : list frame) : list string :=
  chain ≫= Dict.keys.

(** Each nested resolution activates one more bound name, so the depth
    never exceeds the number of bound names. *)
Definition enough (chain : list frame) : nat :=
  S (length (bound_names chain)).

(** Modelled from the spec: [interpolate] of a primitive value resolves
    its text in the frames it has been placed in and returns the new value
    with the names left unbound. *)
Definition String_interpolate (o : String) : String * list string :=
  match resolve (enough (frames o)) (frames o) [] (text o) with
  | Some (t, unbound) => (MkString t (frames o), unbound)
  | None => (o, vars (text o))
  end.

Inductive klazz : Type := StringType.

(** Modelled from the spec: the interface of field values (spec §6) for
    [String].  Wrapping plain text gives a [String] in no frame; [get]
    gives the text back; two strings are equal when their texts are;
    [in_scope] adds frames outside those the value is already in;
    [Environment] keeps the text of each binding.  The specification
    leaves the check of a primitive to the primitive: a [String] passes.
    A [String] is not [Namable]. *)
Global Instance model : ObjectModel := {|
  Klazz := klazz;
  Obj := String;
  Raw := list piece;
  Frame := frame;
  TypeDescr := string;
  TypeDict := unit;
  isinstance := λ _ _, true;
  new := λ _ v, match v with
                | inl raw => Return (MkString raw [])
                | inr o => Return o
                end;
  get := text;
  raw_unit := [];
  repr := λ v, match v with inl raw => render raw | inr o => render (text o) end;
  obj_eq := λ a b, bool_decide (render (text a) = render (text b));
  in_scope := λ o fs, MkString (text o) (frames o ++ fs);
  obj_check := λ _, success;
  obj_interpolate := String_interpolate;
  is_Namable := λ _, false;
  obj_find := λ _ _, Raise Unnamable;
  Environment := λ bindings, prod_map id text <$> bindings;
  serialize_type := λ _, "String";
  TypeFactory_new := λ _ descr,
    if decide (descr = "String") then Return StringType
    else Raise (ValueError "unknown type");
|}.

(** Every object of the model is a [String], so the laws hold. *)
Global Instance model_laws : ObjectLaws (OM := model).
Proof. by split. Qed.

(** [class Pair(Struct): a = String; b = String] *)
Definition Pair : StructClass :=
  MkStructClass "Pair"
    [("a", MkTypeSignature StringType false None);
     ("b", MkTypeSignature StringType false None)].

(** [Default(String, "x")] *)
Definition default_x : TypeSignature :=
  MkTypeSignature StringType false (Some (MkString [Lit "x"] [])).

(** the registry of [TypeFactory], which knows [String] *)
Definition registry : @TypeDict model := tt.

(** the parsed document [{"a": "x", "z": "y"}] *)
Definition extra_key_values : list (string * @Raw model) :=
  [("a", [Lit "x"]); ("z", [Lit "y"])].
Definition extra_key : @parsed model := JsonObject extra_key_values.

(** the keyword arguments [c="x"] and the positional argument ["x"] *)
Definition c_is_x : list (string * pyvalue) := [("c", @PyRaw model [Lit "x"])].
Definition just_x : @argument model := @NotMapping model (inl [Lit "x"]).

(** the keyword arguments [a="x"] *)
Definition a_is_x : list (string * pyvalue) := [("a", @PyRaw model [Lit "x"])].

(** [Pair(a="{{b}}", b="{{a}}")] in an empty store: two fields that refer
    to each other *)
Definition loop : Structural := MkStructural Pair 0 [].
Definition loop_store : list (list (string * option (@Obj model))) :=
  [[("a", Some (MkString [Var "b"] [])); ("b", Some (MkString [Var "a"] []))]].

(** [Pair(a="{{b}}", b="x")] and [Pair(a="x", b="x")], side by side *)
Definition pair_ref : Structural := MkStructural Pair 0 [].
Definition pair_lit : Structural := MkStructural Pair 1 [].
Definition pairs_store : list (list (string * option (@Obj model))) :=
  [[("a", Some (MkString [Var "b"] [])); ("b", Some (MkString [Lit "x"] []))];
   [("a", Some (MkString [Lit "x"] [])); ("b", Some (MkString [Lit "x"] []))]].

(** [class Person(Struct): first = Required(String); last = Required(String)] *)
Definition Person : StructClass :=
  MkStructClass "Person"
    [("first", MkTypeSignature StringType true None);
     ("last", MkTypeSignature StringType true None)].

(** [Person()] in an empty store *)
Definition nobody : Structural := MkStructural Person 0 [].
Definition nobody_store : list (list (string * option (@Obj model))) :=
  [[("first", None); ("last", None)]].




End Mustache.

(** ** Construction and update as functions on mappings

    The reading of §4.3 of the specification: start from the defaults of the
    schema, apply the positional override maps from left to right and then
    the keyword map, each override replacing the field it names by the
    coerced value ([override], [override_args]).  The code hands each map
    to its functions as keywords, so that a map naming a parameter of the
    function it is handed to is refused before anything is assigned
    ([update], [applied], [constructed], [called]).  [apply] and [__call__]
    are compared with these below. *)

Section functional.
Context {OM : ObjectModel}.

Fixpoint override (cls : StructClass) (d : list (string * option Obj))
  (kw : list (string * pyvalue)) : Exc (list (string * option Obj)) :=
  match kw with
  | [] => Return d
  | (attr, val) :: kw' =>
      match _process_schema_attribute cls attr val with
      | Raise e => Raise e
      | Return v => override cls (Dict.set attr v d) kw'
      end
  end.

(** The names the functions that take the overrides as keywords have for
    their own parameters. *)
Definition reserved : list string := ["self"; "cls"; "value"].

(** names that are all free to be keywords *)
Definition bindable (names : list string) : Prop :=
  Forall (λ name, name ∉ reserved) names.

Global Instance bindable_dec names : Decision (bindable names).
Proof. unfold bindable. apply _. Defined.

(** the call of a function whose parameters are [params], as a result *)
Definition bound {A B} (function : string) (params : list string)
  (kw : list (string * A)) (body : Exc B) : Exc B :=
  match clash params kw with
  | Some argument => Raise (TypeError function argument)
  | None => body
  end.

(** one call of [_update_schema_data] on the mapping [d] *)
Definition update (cls : StructClass) (d : list (string * option Obj))
  (kw : list (string * pyvalue)) : Exc (list (string * option Obj)) :=
  bound "_update_schema_data" ["cls"; "value"] kw (override cls d kw).

Fixpoint override_args (cls : StructClass) (d : list (string * option Obj))
  (args : list argument) : Exc (list (string * option Obj)) :=
  match args with
  | [] => Return d
  | NotMapping v :: _ =>
      Raise (ValueError ("Expected dictionary argument, got " +:+ repr v))
  | Mapping kw :: args' =>
      match update cls d kw with
      | Raise e => Raise e
      | Return d' => override_args cls d' args'
      end
  end.

Definition defaults (cls : StructClass) : list (string * option Obj) :=
  Dict.of_items (prod_map id default <$> TYPEMAP cls).

(** the mapping [apply] builds *)
Definition applied (cls : StructClass) (args : list argument)
  (kw : list (string * pyvalue)) : Exc (list (string * option Obj)) :=
  bound "apply" ["cls"] kw
    match override_args cls (defaults cls) args with
    | Raise e => Raise e
    | Return d => update cls d kw
    end.

(** the mapping of the composite a construction returns *)
Definition constructed (cls : StructClass) (args : list argument)
  (kw : list (string * pyvalue)) : Exc (list (string * option Obj)) :=
  bound "__init__" ["self"] kw (applied cls args kw).

(** the mapping of the composite a functional update of the mapping [d]
    returns *)
Definition called (cls : StructClass) (d : list (string * option Obj))
  (kw : list (string * pyvalue)) : Exc (list (string * option Obj)) :=
  bound "__call__" ["self"] kw (update cls d kw).

(** The second store holds what the first holds, at the same addresses. *)
Definition extends (σ σ' : store) : Prop := σ `prefix_of` σ'.

(** The stores differ at most in the dictionary at [a]. *)
Definition same_but (a : nat) (σ σ' : store) : Prop :=
  length σ' = length σ ∧ ∀ b, b ≠ a → σ' !! b = σ !! b.

(** The field-name set of a schema, and the key set of a mapping. *)
Definition field_names (cls : StructClass) : gset string :=
  list_to_set (Dict.keys (TYPEMAP cls)).

Definition key_set (d : list (string * option Obj)) : gset string :=
  list_to_set (Dict.keys d).

(** A wrapped type the registry carries: its descriptor materialises to
    a class of the same descriptor, which wraps the raw form of an instance
    into an equal object.  This is what the primitive types provide. *)
Definition round_trips (type_dict : TypeDict) (k : Klazz) : Prop :=
  ∃ k', TypeFactory_new type_dict (serialize_type k) = Return k'
        ∧ serialize_type k' = serialize_type k
        ∧ ∀ d, isinstance d k = true →
            ∃ d', new k' (inl (get d)) = Return d' ∧ obj_eq d d' = true.

(** What [TypeSignature.__init__] establishes: a default is an instance
    of the wrapped type. *)
Definition signature_ok (sig : TypeSignature) : Prop :=
  ∀ d, default sig = Some d → isinstance d (klazz sig) = true.

(** What [StructFactory.create] establishes: [TYPEMAP] is a dictionary of
    signatures built by [TypeSignature.__init__]. *)
Definition class_ok (cls : StructClass) : Prop :=
  NoDup (Dict.keys (TYPEMAP cls))
  ∧ ∀ name sig, (name, sig) ∈ TYPEMAP cls → signature_ok sig.

(** The names the override maps of a construction supply. *)
Definition supplied (args : list argument) (kw : list (string * pyvalue))
  : list string :=
  (args ≫= λ arg, match arg with Mapping kw => kw.*1 | NotMapping _ => [] end)
  ++ kw.*1.

(** Every present field is an instance of the class its signature wraps. *)
Definition well_typed (cls : StructClass) (d : list (string * option Obj)) : Prop :=
  ∀ name o, Dict.get name d = Some (Some o) →
    ∃ sig, Dict.get name (TYPEMAP cls) = Some sig ∧ isinstance o (klazz sig) = true.

(** A composite of the store: its dictionary is allocated and keyed by
    exactly the field names of its schema. *)
Record wf (σ : store) (self : Structural) : Prop := {
  wf_allocated : _value self < length σ;
  wf_keys : key_set (deref σ (_value self)) = field_names (__class__ self);
  wf_NoDup : NoDup (Dict.keys (deref σ (_value self)));
}.

(** An override map the schema accepts: every name is a field and every
    value is [Empty], an instance, or coercible. *)
Definition accepted (cls : StructClass) (kw : list (string * pyvalue)) : Prop :=
  Forall (λ kv, is_Return (_process_schema_attribute cls kv.1 kv.2)) kw.

(** The composites a program can hold: those produced by construction or
    by functional update, in the store they were produced in or in any
    later one. *)
Inductive produced : store → Structural → Prop :=
| produced_new cls args kw σ self σ' :
    Structural_new cls args kw σ = (Return self, σ') → produced σ' self
| produced_call self kw σ new_self σ' :
    produced σ self → __call__ self kw σ = (Return new_self, σ') →
    produced σ' new_self
| produced_later σ σ' self :
    produced σ self → extends σ σ' → produced σ' self.

(** The present fields of a mapping, which [scopes()] turns into the
    innermost frame. *)
Definition present (d : list (string * option Obj)) : list (string * Obj) :=
  omap (λ kv, (λ v, (kv.1, v)) <$> kv.2) d.

(** The frames [scopes()] returns when the mapping of [self] is [d]: the
    frame of the present fields, then the outer frames. *)
Definition scope_chain (self : Structural) (d : list (string * option Obj))
  : list Frame :=
  Environment (Dict.of_items (present d)) :: _scopes self.

(** [s] occurs in the message. *)
Definition names (msg s : string) : Prop := ∃ pre post, msg = pre +:+ s +:+ post.

(** the same, decided: [s] is a prefix of the message or occurs later *)
Fixpoint occurs (s msg : string) : bool :=
  String.prefix s msg
  || match msg with
     | EmptyString => false
     | String _ msg' => occurs s msg'
     end.

(** A field after interpolation in the frames [sc]: [Empty] stays
    [Empty], a present value is placed in the frames and interpolated. *)
Definition interpolated_field (sc : list Frame) (v : option Obj) : option Obj :=
  (λ o, (obj_interpolate (in_scope o sc)).1) <$> v.

(** a field as a keyword value: [Empty] or the object *)
Definition to_py (v : option Obj) : pyvalue :=
  match v with None => Empty | Some o => PyObj o end.

(** The names a field leaves unbound in the frames [sc]. *)
Definition unbound_of (sc : list Frame) (v : option Obj) : list string :=
  match v with
  | None => []
  | Some o => (obj_interpolate (in_scope o sc)).2
  end.

(** The mapping [interpolate] constructs from the mapping [d] of [self]:
    the defaults of the schema, every field of [d] assigned after
    interpolation. *)
Definition interpolation (self : Structural) (d : list (string * option Obj))
  : list (string * option Obj) :=
  foldl (λ acc kv,
           Dict.set kv.1 (interpolated_field (scope_chain self d) kv.2) acc)
    (defaults (__class__ self)) d.

(** The error of a construction from keywords alone whose names are
    [names]: the constructor refuses [self], [apply] refuses [cls] and
    [_update_schema_data] refuses [value]. *)
Definition keyword_error (names : list string) : option Exception :=
  if decide ("self" ∈ names) then Some (TypeError "__init__" "self")
  else if decide ("cls" ∈ names) then Some (TypeError "apply" "cls")
  else if decide ("value" ∈ names)
       then Some (TypeError "_update_schema_data" "value")
       else None.

(** The mapping of the composite [interpolate] constructs, from the
    interpolated fields of [d] given as keywords. *)
Definition interpolated (self : Structural) (d : list (string * option Obj))
  : Exc (list (string * option Obj)) :=
  constructed (__class__ self) []
    (prod_map id (to_py ∘ interpolated_field (scope_chain self d)) <$> d).

(** [self.TYPEMAP == other.TYPEMAP] *)
Definition same_schema (self other : Structural) : bool :=
  dict_eq TypeSignature_eq (TYPEMAP (__class__ self)) (TYPEMAP (__class__ other)).

(** Every field that is not [Empty] passes its own check in the scope
    chain of the composite. *)
Definition present_checks_succeed (σ : store) (self : Structural) : Prop :=
  ∀ name o, Dict.get name (deref σ (_value self)) = Some (Some o) →
    ok (obj_check (in_scope o (scope_chain self (deref σ (_value self))))) = true.

(** The two ways a schema entry makes [check] fail, for the mapping [d]
    checked in the frames [sc]. *)
Definition required_missing (d : list (string * option Obj))
  (entry : string * TypeSignature) : Prop :=
  required entry.2 = true ∧ Dict.get entry.1 d = Some None.

Definition check_fails (sc : list Frame) (d : list (string * option Obj))
  (entry : string * TypeSignature) : Prop :=
  ∃ o, Dict.get entry.1 d = Some (Some o) ∧ ok (obj_check (in_scope o sc)) = false.

Definition passes (sc : list Frame) (d : list (string * option Obj))
  (entry : string * TypeSignature) : Prop :=
  ¬ required_missing d entry ∧ ¬ check_fails sc d entry.

End functional.

(** ** The rest of [composite.py]

    The helpers [Required] and [Default], [TypeSignature.__ne__] and
    [TypeSignature.wrap], the schema extraction of [StructMetaclass],
    [Structural.type_parameters] and [Structural.__getattr__]. *)

Section declarations.
Context {OM : ObjectModel}.

(** [Required(cls)] is [TypeSignature(cls, required=True)]. *)
Definition Required (cls : Klazz) : Exc TypeSignature :=
  TypeSignature_init cls true Empty.

(** [Default(cls, default)] is
    [TypeSignature(cls, required=False, default=default)]. *)
Definition Default (cls : Klazz) (default : pyvalue) : Exc TypeSignature :=
  TypeSignature_init cls false default.

(** [TypeSignature.__ne__] *)
Definition TypeSignature_ne (self other : TypeSignature) : bool :=
  negb (TypeSignature_eq self other).

(** What the body of a class can bind a name to: a subclass of [Object],
    a [TypeSignature], or anything else (a method, a constant). *)
Inductive attribute : Type :=
| AClass (sig : Klazz)
| ASignature (sig : TypeSignature)
| AOther.

(** [TypeSignature.wrap]: [TypeSignature(sig)] for a class, which has no
    default to coerce; the signature itself; [None] for the rest, on which
    the function falls off its end. *)
Definition wrap (sig : attribute) : option TypeSignature :=
  match sig with
  | AClass cls => Some (MkTypeSignature cls false None)
  | ASignature sig => Some sig
  | AOther => None
  end.

(** [StructMetaclass.attributes_to_parameters] on the attributes of a class
    body, in the iteration order of [attributes.items()]. *)
Definition StructMetaclass_attributes_to_parameters
  (attributes : list (string * attribute))
  : list (string * SerializedSignature) :=
  omap (λ kv, (λ sig, (kv.1, serialize sig)) <$> wrap kv.2) attributes.

(** the order of [sorted] on the pairs [(attr, sig.serialize())]: the names
    are compared first, as strings, and the items of a dictionary have
    distinct names *)
Definition by_name (a b : string * SerializedSignature) : Prop :=
  String.le a.1 b.1.

Global Instance by_name_dec : RelDecision by_name.
Proof. intros a b. unfold by_name. apply _. Defined.

(** [Structural.type_parameters] *)
Definition type_parameters (cls : StructClass)
  : string * list (string * SerializedSignature) :=
  (__name__ cls, merge_sort by_name (prod_map id serialize <$> TYPEMAP cls)).

(** [Structural.type_factory] *)
Definition type_factory (cls : StructClass) : string := "Struct".

(** the override maps of positional arguments, one after the other *)
Definition mappings (args : list argument) : list (string * pyvalue) :=
  args ≫= λ arg, match arg with Mapping kw => kw | NotMapping _ => [] end.

Definition is_Mapping (arg : argument) : Prop :=
  match arg with Mapping _ => True | NotMapping _ => False end.

(** [attr[4:]] *)
Definition drop4 (attr : string) : string :=
  String.substring 4 (String.length attr - 4) attr.

(** What [__getattr__] returns: one of its two closures. *)
Inductive accessor : Type :=
| has_accessor (name : string)
| key_accessor (attr : string).

(** [Structural.__getattr__] on an instance, which has a [TYPEMAP]. *)
Definition __getattr__ (self : Structural) (attr : string) : Exc accessor :=
  if String.prefix "has_" attr
     && Dict.mem (drop4 attr) (TYPEMAP (__class__ self))
  then Return (has_accessor (drop4 attr))
  else if negb (Dict.mem attr (TYPEMAP (__class__ self)))
  then Raise (AttributeError (__name__ (__class__ self) +:+ " has no attribute "
                              +:+ attr))
  else Return (key_accessor attr).

(** [value != Empty] when [value] is an object is decided by the object;
    [Empty != Empty] is false. *)
Variable ne_Empty : Obj → bool.

(** Calling the closure: [self._value[name] != Empty], or
    [self.interpolate_key(attr)]. *)
Definition call_accessor (self : Structural) (acc : accessor)
  : M (bool + option Obj) :=
  match acc with
  | has_accessor name =>
      v ← getitem (_value self) name;
      ret (inl (match v with None => false | Some o => ne_Empty o end))
  | key_accessor attr =>
      v ← interpolate_key self attr;
      ret (inr v)
  end.

End declarations.

(** ** More concrete values *)

Module MustacheMore.
Import Mustache.

(** [class Employee(Struct): first = Required(String);
    last = Default(String, "doe")] *)
Definition Employee : StructClass :=
  MkStructClass "Employee"
    [("first", MkTypeSignature StringType true None);
     ("last", MkTypeSignature StringType false (Some (MkString [Lit "doe"] [])))].

(** [Employee()] in an empty store *)
Definition anonymous : Structural := MkStructural Employee 0 [].
Definition anonymous_store : list (list (string * option (@Obj model))) :=
  [[("first", None); ("last", Some (MkString [Lit "doe"] []))]].

(** the keyword arguments [b="y"] *)
Definition b_is_y : list (string * pyvalue) := [("b", @PyRaw model [Lit "y"])].

(** [loop(a="x")] and the store it leaves *)
Definition loop_a : Structural := MkStructural Pair 1 [].
Definition loop_a_store : list (list (string * option (@Obj model))) :=
  loop_store
  ++ [[("a", Some (MkString [Lit "x"] [])); ("b", Some (MkString [Var "a"] []))]].

(** [Pair()] in an empty store *)
Definition blank : Structural := MkStructural Pair 0 [].
Definition blank_store : list (list (string * option (@Obj model))) :=
  [[("a", None); ("b", None)]].

(** the parsed document [{"a": "x"}] *)
Definition only_a : list (string * @Raw model) := [("a", [Lit "x"])].

(** a class body: a bare class, a signature and a method *)
Definition body : list (string * @attribute model) :=
  [("a", AClass StringType); ("b", ASignature default_x); ("m", AOther)].

End MustacheMore.

(** * Properties *)

(** ** Dictionaries *)

Section dict_facts.
Context {V : Type}.
Implicit Types (d : list (string * V)) (k : string) (v : V).

Lemma get_set_eq k v d : Dict.get k (Dict.set k v d) = Some v.
Proof.
  induction d as [|[k' v'] d IH]; simpl.
  - by rewrite decide_True.
  - destruct (decide (k = k')) as [->|Hne]; simpl.
    + by rewrite decide_True.
    + by rewrite decide_False.
Qed.

Lemma get_set_ne k k' v d : k ≠ k' → Dict.get k' (Dict.set k v d) = Dict.get k' d.
Proof.
  intros Hne. induction d as [|[k0 v0] d IH]; simpl.
  - by rewrite decide_False.
  - destruct (decide (k = k0)) as [->|Hk]; simpl.
    + by rewrite !decide_False.
    + destruct (decide (k' = k0)); done.
Qed.

Lemma get_Some_keys k d : is_Some (Dict.get k d) ↔ k ∈ Dict.keys d.
Proof.
  unfold Dict.keys. induction d as [|[k' v'] d IH]; simpl.
  - split; [by intros [? ?] | by intros ?%elem_of_nil].
  - rewrite elem_of_cons. destruct (decide (k = k')) as [->|Hne].
    + split; [by left | by eauto].
    + rewrite IH. naive_solver.
Qed.

Lemma get_None_keys k d : Dict.get k d = None ↔ k ∉ Dict.keys d.
Proof. rewrite <-get_Some_keys, eq_None_not_Some. done. Qed.

Lemma mem_keys k d : Dict.mem k d = true ↔ k ∈ Dict.keys d.
Proof. unfold Dict.mem. rewrite bool_decide_eq_true. apply get_Some_keys. Qed.

(** Assigning to a key the dictionary has leaves its keys as they are. *)
Lemma keys_set_present k v d :
  k ∈ Dict.keys d → Dict.keys (Dict.set k v d) = Dict.keys d.
Proof.
  unfold Dict.keys. induction d as [|[k' v'] d IH]; simpl.
  - by intros ?%elem_of_nil.
  - intros Hin. destruct (decide (k = k')) as [->|Hne]; simpl; [done|].
    f_equal. apply IH. apply elem_of_cons in Hin as [?|?]; done.
Qed.

Lemma keys_set_absent k v d :
  k ∉ Dict.keys d → Dict.keys (Dict.set k v d) = Dict.keys d ++ [k].
Proof.
  unfold Dict.keys. induction d as [|[k' v'] d IH]; simpl; [done|].
  intros Hin. apply not_elem_of_cons in Hin as [Hne Hin].
  rewrite decide_False by done. simpl. f_equal. by apply IH.
Qed.

Lemma keys_set_NoDup k v d :
  NoDup (Dict.keys d) → NoDup (Dict.keys (Dict.set k v d)).
Proof.
  intros Hnd. destruct (decide (k ∈ Dict.keys d)) as [Hin|Hin].
  - by rewrite keys_set_present.
  - rewrite keys_set_absent by done. apply NoDup_app. split_and!; [done| |].
    + intros x Hx ->%list_elem_of_singleton. done.
    + apply NoDup_singleton.
Qed.

Lemma elem_of_keys_set k k' v d :
  k' ∈ Dict.keys (Dict.set k v d) ↔ k' = k ∨ k' ∈ Dict.keys d.
Proof.
  rewrite <-!get_Some_keys. destruct (decide (k = k')) as [->|Hne].
  - rewrite get_set_eq. naive_solver.
  - rewrite get_set_ne by done. naive_solver.
Qed.

Lemma of_items_snoc (l : list (string * V)) k v :
  Dict.of_items (l ++ [(k, v)]) = Dict.set k v (Dict.of_items l).
Proof. unfold Dict.of_items. by rewrite foldl_app. Qed.

Lemma keys_of_items_NoDup (l : list (string * V)) : NoDup (Dict.keys (Dict.of_items l)).
Proof.
  induction l as [|[k v] l IH] using rev_ind.
  - apply NoDup_nil_2.
  - rewrite of_items_snoc. by apply keys_set_NoDup.
Qed.

Lemma elem_of_keys_of_items (l : list (string * V)) k :
  k ∈ Dict.keys (Dict.of_items l) ↔ k ∈ l.*1.
Proof.
  induction l as [|[k' v] l IH] using rev_ind.
  - done.
  - rewrite of_items_snoc, elem_of_keys_set, IH, fmap_app, elem_of_app.
    simpl. rewrite list_elem_of_singleton. naive_solver.
Qed.

(** The last binding of a key is the one [dict(items)] keeps. *)
Lemma get_of_items_snoc (l : list (string * V)) k v k' :
  Dict.get k' (Dict.of_items (l ++ [(k, v)]))
  = if decide (k = k') then Some v else Dict.get k' (Dict.of_items l).
Proof.
  rewrite of_items_snoc. destruct (decide (k = k')) as [->|Hne].
  - apply get_set_eq.
  - by apply get_set_ne.
Qed.

(** A list of items without repeated keys is the dictionary it builds. *)
Lemma of_items_NoDup (l : list (string * V)) : NoDup l.*1 → Dict.of_items l = l.
Proof.
  induction l as [|[k v] l IH] using rev_ind; [done|].
  rewrite fmap_app, NoDup_app. simpl. intros (Hl & Hk & _).
  rewrite of_items_snoc, IH by done. clear IH.
  assert (k ∉ l.*1) as Hin by (intros Hin; apply (Hk k Hin); by left).
  clear Hk Hl. induction l as [|[k' v'] l IH]; simpl; [done|].
  simpl in Hin. apply not_elem_of_cons in Hin as [Hne Hin].
  rewrite decide_False by done. f_equal. by apply IH.
Qed.

End dict_facts.

(** ** Construction and functional update *)

Section construction.
Context {OM : ObjectModel}.
Implicit Types (cls : StructClass) (σ : store) (d : list (string * option Obj)).

Lemma deref_lookup σ a d : σ !! a = Some d → deref σ a = d.
Proof. unfold deref. by intros ->. Qed.

Lemma same_but_refl a σ : same_but a σ σ.
Proof. by split. Qed.

Lemma same_but_trans a σ1 σ2 σ3 :
  same_but a σ1 σ2 → same_but a σ2 σ3 → same_but a σ1 σ3.
Proof.
  intros [Hl1 H1] [Hl2 H2]. split; [congruence|].
  intros b Hb. rewrite H2, H1; done.
Qed.

Lemma same_but_alter a σ (f : list (string * option Obj) → list (string * option Obj)) :
  same_but a σ (alter f a σ).
Proof.
  split; [apply length_alter|]. intros b Hb. by apply list_lookup_alter_ne.
Qed.

Lemma extends_refl σ : extends σ σ.
Proof. exists []. by rewrite app_nil_r. Qed.

Lemma extends_snoc σ d : extends σ (σ ++ [d]).
Proof. by exists [d]. Qed.

(** ** Keyword binding *)

Lemma clash_None {A} params (kw : list (string * A)) :
  clash params kw = None ↔ ∀ p, p ∈ params → p ∉ kw.*1.
Proof.
  unfold clash. rewrite head_None. split.
  - intros Hnil p Hp. by apply (filter_nil_not_elem_of _ _ _ Hnil).
  - intros Hno. destruct (filter _ _) as [|x l] eqn:E; [done|].
    assert (x ∈ filter (λ name, name ∈ params) kw.*1) as [Hp Hin]%list_elem_of_filter.
    { rewrite E. by left. }
    by destruct (Hno x Hp).
Qed.

Lemma clash_Some {A} params (kw : list (string * A)) p :
  clash params kw = Some p → p ∈ params ∧ p ∈ kw.*1.
Proof.
  unfold clash. intros H%head_Some_elem_of. by apply list_elem_of_filter in H.
Qed.

(** Names outside [reserved] bind in every function of the file. *)
Lemma bindable_clash {A} (kw : list (string * A)) :
  bindable kw.*1 ↔
  clash ["self"] kw = None ∧ clash ["cls"; "value"] kw = None.
Proof.
  unfold bindable, reserved. rewrite Forall_forall, !clash_None. split.
  - intros Hb. split; intros p Hp Hin; apply (Hb p Hin); set_solver.
  - intros [Hself Hrest] name Hin Hres.
    apply elem_of_cons in Hres as [->|Hres].
    + apply (Hself "self"); [by left|done].
    + by apply (Hrest name).
Qed.

Lemma clash_sub {A} params params' (kw : list (string * A)) :
  (∀ p, p ∈ params → p ∈ params') →
  clash params' kw = None → clash params kw = None.
Proof. rewrite !clash_None. intros Hsub Hno p Hp. by apply Hno, Hsub. Qed.

Lemma bindable_cls {A} (kw : list (string * A)) :
  bindable kw.*1 → clash ["cls"] kw = None.
Proof.
  intros [_ H]%bindable_clash. apply (clash_sub ["cls"] ["cls"; "value"]); [|done].
  intros p Hp. set_solver.
Qed.

Lemma bound_Return {A B} function params (kw : list (string * A)) (body : Exc B) b :
  bound function params kw body = Return b ↔ clash params kw = None ∧ body = Return b.
Proof.
  unfold bound. destruct (clash params kw); [|naive_solver].
  split; [done|by intros [? _]].
Qed.

Lemma bound_None {A B} function params (kw : list (string * A)) (body : Exc B) :
  clash params kw = None → bound function params kw body = body.
Proof. unfold bound. by intros ->. Qed.

Lemma update_Return cls d kw d' :
  update cls d kw = Return d' ↔
  clash ["cls"; "value"] kw = None ∧ override cls d kw = Return d'.
Proof. apply bound_Return. Qed.

Lemma update_bindable cls d kw :
  bindable kw.*1 → update cls d kw = override cls d kw.
Proof. intros [_ H]%bindable_clash. by apply bound_None. Qed.

Lemma called_bindable cls d kw :
  bindable kw.*1 → called cls d kw = override cls d kw.
Proof.
  intros Hb. unfold called. rewrite bound_None, update_bindable; [done..|].
  by apply bindable_clash in Hb as [? _].
Qed.

Lemma called_Return cls d kw d' :
  called cls d kw = Return d' ↔ bindable kw.*1 ∧ override cls d kw = Return d'.
Proof.
  unfold called. rewrite bound_Return, update_Return, bindable_clash. naive_solver.
Qed.

(** The loop of [_update_schema_data] assigns into the dictionary at
    [value] and into no other; it ends as [override] says. *)
Lemma update_loop_run cls a kw σ :
  a < length σ →
  ∃ σ', same_but a σ σ' ∧
    match override cls (deref σ a) kw with
    | Return d' =>
        update_loop cls a kw σ = (Return (), σ') ∧ σ' !! a = Some d'
    | Raise e => update_loop cls a kw σ = (Raise e, σ')
    end.
Proof.
  revert σ. induction kw as [|[attr val] kw IH]; intros σ Ha; simpl.
  - exists σ. split; [apply same_but_refl|]. split; [done|].
    unfold deref. destruct (σ !! a) eqn:E; [done|].
    apply lookup_ge_None in E. lia.
  - unfold mbind, M_bind, bind, lift.
    destruct (_process_schema_attribute cls attr val) as [v|e].
    + unfold setitem at 1. cbv beta.
      destruct (IH (alter (Dict.set attr v) a σ)) as (σ' & Hsame & Hrun).
      { by rewrite length_alter. }
      exists σ'. split.
      { eapply same_but_trans; [apply same_but_alter|done]. }
      assert (deref (alter (Dict.set attr v) a σ) a = Dict.set attr v (deref σ a))
        as Hd.
      { unfold deref. rewrite list_lookup_alter_eq.
        destruct (σ !! a) eqn:E; [done|].
        apply lookup_ge_None in E. lia. }
      by rewrite Hd in Hrun.
    + exists σ. split; [apply same_but_refl|done].
Qed.

(** [_update_schema_data] raises before its loop when a keyword is one of
    its own parameters, and runs the loop otherwise. *)
Lemma update_run cls a kw σ :
  a < length σ →
  ∃ σ', same_but a σ σ' ∧
    match update cls (deref σ a) kw with
    | Return d' =>
        _update_schema_data cls a kw σ = (Return (), σ') ∧ σ' !! a = Some d'
    | Raise e => _update_schema_data cls a kw σ = (Raise e, σ')
    end.
Proof.
  intros Ha. unfold update, bound, _update_schema_data, keywords.
  destruct (clash _ kw) as [p|]; [|by apply update_loop_run].
  exists σ. split; [apply same_but_refl|done].
Qed.

Lemma apply_args_run cls a args σ :
  a < length σ →
  ∃ σ', same_but a σ σ' ∧
    match override_args cls (deref σ a) args with
    | Return d' => apply_args cls a args σ = (Return (), σ') ∧ σ' !! a = Some d'
    | Raise e => apply_args cls a args σ = (Raise e, σ')
    end.
Proof.
  revert σ. induction args as [|[kw|v] args IH]; intros σ Ha; simpl.
  - exists σ. split; [apply same_but_refl|]. split; [done|].
    unfold deref. destruct (σ !! a) eqn:E; [done|].
    apply lookup_ge_None in E. lia.
  - unfold mbind, M_bind, bind.
    destruct (update_run cls a kw σ Ha) as (σ1 & Hsame1 & Hrun1).
    destruct (update cls (deref σ a) kw) as [d1|e].
    + destruct Hrun1 as [-> Hd1].
      destruct (IH σ1) as (σ' & Hsame & Hrun).
      { destruct Hsame1 as [-> _]. done. }
      exists σ'. split; [by eapply same_but_trans|].
      by rewrite (deref_lookup _ _ _ Hd1) in Hrun.
    + rewrite Hrun1. by exists σ1.
  - exists σ. split; [apply same_but_refl|done].
Qed.

Lemma same_but_snoc σ d0 σ' :
  same_but (length σ) (σ ++ [d0]) σ' → ∃ d', σ' = σ ++ [d'].
Proof.
  intros [Hlen Hsame]. rewrite length_app in Hlen. simpl in Hlen.
  destruct (σ' !! length σ) as [d'|] eqn:E.
  2: { apply lookup_ge_None in E. lia. }
  exists d'. apply list_eq. intros i.
  destruct (decide (i = length σ)) as [->|Hne].
  - rewrite E. by rewrite lookup_app_r, Nat.sub_diag.
  - rewrite Hsame by done. destruct (decide (i < length σ)).
    + by rewrite !lookup_app_l.
    + rewrite !lookup_app_r by lia.
      destruct (i - length σ) as [|m] eqn:En; [lia|done].
Qed.

(** [apply] raises at the call when a keyword is called [cls]; otherwise
    it allocates one dictionary, touches no other and, when it returns,
    returns the address of the mapping [applied] describes. *)
Lemma apply_run cls args kw σ :
  ∃ σ', extends σ σ' ∧ length σ' ≤ S (length σ) ∧
    match applied cls args kw with
    | Return d => apply cls args kw σ = (Return (length σ), σ') ∧ σ' = σ ++ [d]
    | Raise e => apply cls args kw σ = (Raise e, σ')
    end.
Proof.
  unfold applied, bound, apply, keywords.
  destruct (clash ["cls"] kw) as [p|].
  { exists σ. split_and!; [apply extends_refl|lia|done]. }
  unfold mbind, M_bind, bind, alloc.
  fold (defaults cls).
  destruct (apply_args_run cls (length σ) args (σ ++ [defaults cls]))
    as (σ1 & Hsame1 & Hrun1).
  { rewrite length_app. simpl. lia. }
  assert (deref (σ ++ [defaults cls]) (length σ) = defaults cls) as Hd0.
  { unfold deref. by rewrite lookup_app_r, Nat.sub_diag. }
  rewrite Hd0 in Hrun1.
  destruct (override_args cls (defaults cls) args) as [d1|e].
  - destruct Hrun1 as [-> Hd1].
    destruct (update_run cls (length σ) kw σ1) as (σ2 & Hsame2 & Hrun2).
    { destruct Hsame1 as [-> _]. rewrite length_app. simpl. lia. }
    rewrite (deref_lookup _ _ _ Hd1) in Hrun2.
    destruct (same_but_snoc σ (defaults cls) σ2) as [d' ->].
    { by eapply same_but_trans. }
    exists (σ ++ [d']). split_and!; [apply extends_snoc|rewrite length_app; simpl; lia|].
    destruct (update cls d1 kw) as [d2|e].
    + destruct Hrun2 as [-> Hd2]. split; [done|].
      rewrite lookup_app_r, Nat.sub_diag in Hd2 by done. by injection Hd2 as ->.
    + by rewrite Hrun2.
  - rewrite Hrun1. destruct (same_but_snoc σ (defaults cls) σ1) as [d' ->]; [done|].
    exists (σ ++ [d']). split_and!; [apply extends_snoc|rewrite length_app; simpl; lia|done].
Qed.

Lemma process_known cls attr val v :
  _process_schema_attribute cls attr val = Return v →
  attr ∈ Dict.keys (TYPEMAP cls).
Proof.
  unfold _process_schema_attribute. intros H. apply get_Some_keys.
  destruct (Dict.get attr (TYPEMAP cls)); [by eauto|done].
Qed.


Lemma process_typed `{!ObjectLaws} cls attr val o :
  _process_schema_attribute cls attr val = Return (Some o) →
  ∃ sig, Dict.get attr (TYPEMAP cls) = Some sig ∧ isinstance o (klazz sig) = true.
Proof.
  unfold _process_schema_attribute.
  destruct (Dict.get attr (TYPEMAP cls)) as [sig|]; [|done].
  destruct (unEmpty val) as [v|]; [|done].
  destruct (instance_or_new (klazz sig) v) as [o'|] eqn:E; [|done].
  intros [= ->]. exists sig. split; [done|].
  unfold instance_or_new in E. destruct v as [r|o0].
  - by eapply new_isinstance.
  - destruct (isinstance o0 (klazz sig)) eqn:Ei.
    + by injection E as ->.
    + by eapply new_isinstance.
Qed.

Lemma key_set_set k v d : key_set (Dict.set k v d) = {[k]} ∪ key_set d.
Proof.
  unfold key_set. apply set_eq. intros x.
  rewrite elem_of_union, !elem_of_list_to_set, elem_of_keys_set.
  set_solver.
Qed.

Lemma key_set_defaults cls : key_set (defaults cls) = field_names cls.
Proof.
  unfold key_set, defaults, field_names. apply set_eq. intros x.
  rewrite !elem_of_list_to_set, elem_of_keys_of_items.
  unfold Dict.keys. rewrite <-list_fmap_compose.
  assert ((fst ∘ prod_map id default) <$> TYPEMAP cls = (TYPEMAP cls).*1) as ->; [|done].
  apply list_fmap_ext. by intros ? [] ?.
Qed.

Lemma override_keys cls kw d d' :
  override cls d kw = Return d' →
  key_set d = field_names cls → key_set d' = field_names cls.
Proof.
  revert d. induction kw as [|[attr val] kw IH]; intros d; simpl.
  - by intros [= ->].
  - destruct (_process_schema_attribute cls attr val) as [v|] eqn:E; [|done].
    intros Hrun Hd. apply (IH _ Hrun). rewrite key_set_set, Hd.
    apply process_known in E. unfold field_names. set_solver.
Qed.

Lemma override_NoDup cls kw d d' :
  override cls d kw = Return d' →
  NoDup (Dict.keys d) → NoDup (Dict.keys d').
Proof.
  revert d. induction kw as [|[attr val] kw IH]; intros d; simpl.
  - by intros [= ->].
  - destruct (_process_schema_attribute cls attr val) as [v|]; [|done].
    intros Hrun Hd. apply (IH _ Hrun). by apply keys_set_NoDup.
Qed.

Lemma override_typed `{!ObjectLaws} cls kw d d' :
  override cls d kw = Return d' → well_typed cls d → well_typed cls d'.
Proof.
  revert d. induction kw as [|[attr val] kw IH]; intros d; simpl.
  - by intros [= ->].
  - destruct (_process_schema_attribute cls attr val) as [v|] eqn:E; [|done].
    intros Hrun Hd. apply (IH _ Hrun). intros name o.
    destruct (decide (attr = name)) as [->|Hne].
    + rewrite get_set_eq. intros [= ->]. by eapply process_typed.
    + rewrite get_set_ne by done. apply Hd.
Qed.

(** An override replaces only the fields it names. *)
Lemma override_other cls kw d d' name :
  override cls d kw = Return d' → name ∉ kw.*1 →
  Dict.get name d' = Dict.get name d.
Proof.
  revert d. induction kw as [|[attr val] kw IH]; intros d; simpl.
  - by intros [= ->].
  - destruct (_process_schema_attribute cls attr val) as [v|]; [|done].
    intros Hrun [Hne Hin]%not_elem_of_cons.
    rewrite (IH _ Hrun Hin). by apply get_set_ne.
Qed.

Lemma override_args_inv cls (P : list (string * option Obj) → Prop) args d d' :
  (∀ kw d d', override cls d kw = Return d' → P d → P d') →
  override_args cls d args = Return d' → P d → P d'.
Proof.
  intros HP. revert d. induction args as [|[kw|v] args IH]; intros d; simpl.
  - by intros [= ->].
  - destruct (update cls d kw) as [d1|] eqn:E; [|done].
    apply update_Return in E as [_ E]. eauto.
  - done.
Qed.

Lemma override_args_other cls args d d' name :
  override_args cls d args = Return d' → name ∉ supplied args [] →
  Dict.get name d' = Dict.get name d.
Proof.
  unfold supplied. rewrite app_nil_r.
  revert d. induction args as [|[kw|v] args IH]; intros d; simpl.
  - by intros [= ->].
  - destruct (update cls d kw) as [d1|] eqn:E; [|done].
    apply update_Return in E as [_ E].
    intros Hrun [Hkw Hargs]%not_elem_of_app.
    rewrite (IH _ Hrun Hargs). by eapply override_other.
  - done.
Qed.

Lemma well_typed_defaults cls :
  (∀ name sig o, (name, sig) ∈ TYPEMAP cls → default sig = Some o →
     isinstance o (klazz sig) = true) →
  NoDup (Dict.keys (TYPEMAP cls)) →
  well_typed cls (defaults cls).
Proof.
  intros Hsig Hnd name o. unfold defaults.
  rewrite of_items_NoDup.
  2:{ rewrite <-list_fmap_compose.
      assert ((fst ∘ prod_map id default) <$> TYPEMAP cls = (TYPEMAP cls).*1) as ->;
        [|done].
      apply list_fmap_ext. by intros ? [] ?. }
  clear Hnd. induction (TYPEMAP cls) as [|[k sig] tm IH]; simpl; [done|].
  destruct (decide (name = k)) as [->|Hne].
  - intros [= Hd]. exists sig. split; [done|]. eapply Hsig; [by left|done].
  - apply IH. intros n0 s0 o0 Hin. apply (Hsig n0). by right.
Qed.

(** A construction returns when no keyword is a parameter of the
    functions it goes through and the loops return. *)
Lemma applied_Return cls args kw d :
  applied cls args kw = Return d ↔
  clash ["cls"; "value"] kw = None
  ∧ ∃ d1, override_args cls (defaults cls) args = Return d1
          ∧ override cls d1 kw = Return d.
Proof.
  unfold applied. rewrite bound_Return. split.
  - intros [_ Hrun].
    destruct (override_args cls (defaults cls) args) as [d1|]; [|done].
    apply update_Return in Hrun as [? ?]. split; [done|by exists d1].
  - intros (Hno & d1 & -> & Hrun). split.
    + apply (clash_sub ["cls"] ["cls"; "value"]); [|done]. intros p Hp. set_solver.
    + by apply update_Return.
Qed.

Lemma constructed_Return cls args kw d :
  constructed cls args kw = Return d ↔
  bindable kw.*1
  ∧ ∃ d1, override_args cls (defaults cls) args = Return d1
          ∧ override cls d1 kw = Return d.
Proof.
  unfold constructed. rewrite bound_Return, applied_Return, bindable_clash.
  naive_solver.
Qed.

Lemma constructed_applied cls args kw :
  clash ["self"] kw = None → constructed cls args kw = applied cls args kw.
Proof. apply bound_None. Qed.

Lemma constructed_keys cls args kw d :
  constructed cls args kw = Return d →
  key_set d = field_names cls ∧ NoDup (Dict.keys d).
Proof.
  intros (_ & d1 & E & Hrun)%constructed_Return. split.
  - apply (override_keys _ _ _ _ Hrun).
    apply (override_args_inv cls (λ d, key_set d = field_names cls) _ _ _
             (override_keys cls) E), key_set_defaults.
  - apply (override_NoDup _ _ _ _ Hrun).
    apply (override_args_inv cls (λ d, NoDup (Dict.keys d)) _ _ _
             (override_NoDup cls) E), keys_of_items_NoDup.
Qed.

Lemma constructed_other cls args kw d name :
  constructed cls args kw = Return d → name ∉ supplied args kw →
  Dict.get name d = Dict.get name (defaults cls).
Proof.
  intros (_ & d1 & E & Hrun)%constructed_Return.
  intros Hin. unfold supplied in Hin. apply not_elem_of_app in Hin as [Ha Hk].
  rewrite (override_other _ _ _ _ _ Hrun Hk).
  apply (override_args_other _ _ _ _ _ E). unfold supplied. by rewrite app_nil_r.
Qed.

(** What [dict(items)] holds under a key is one of the values the items
    give it. *)
Lemma get_of_items_elem {V} (l : list (string * V)) k v :
  Dict.get k (Dict.of_items l) = Some v → (k, v) ∈ l.
Proof.
  induction l as [|[k' v'] l IH] using rev_ind; [done|].
  rewrite get_of_items_snoc, elem_of_app, list_elem_of_singleton.
  destruct (decide (k' = k)) as [->|Hne].
  - intros [= ->]. by right.
  - intros H. left. by apply IH.
Qed.

Lemma get_defaults_Empty cls name :
  name ∈ field_names cls →
  (∀ sig, (name, sig) ∈ TYPEMAP cls → default sig = None) →
  Dict.get name (defaults cls) = Some None.
Proof.
  intros Hin Hno.
  assert (is_Some (Dict.get name (defaults cls))) as [v Hv].
  { apply get_Some_keys. rewrite <-key_set_defaults in Hin.
    unfold key_set in Hin. by apply elem_of_list_to_set in Hin. }
  rewrite Hv. f_equal. unfold defaults in Hv.
  apply get_of_items_elem, list_elem_of_fmap in Hv as ([k sig] & [= -> ->] & Hsig).
  simpl. by apply Hno.
Qed.

(** [__call__] raises at the call when a keyword is called [self];
    otherwise it allocates the copy, touches no other dictionary and, when
    it returns, returns the mapping [called] describes. *)
Lemma call_run (self : Structural) kw σ :
  ∃ σ', extends σ σ' ∧ length σ' ≤ S (length σ) ∧
    match called (__class__ self) (deref σ (_value self)) kw with
    | Return d =>
        __call__ self kw σ
        = (Return (MkStructural (__class__ self) (length σ) (_scopes self)), σ')
        ∧ σ' = σ ++ [d]
    | Raise e => __call__ self kw σ = (Raise e, σ')
    end.
Proof.
  unfold called, bound, __call__, keywords.
  destruct (clash ["self"] kw) as [p|].
  { exists σ. split_and!; [apply extends_refl|lia|done]. }
  unfold copy, mbind, M_bind, bind, items, alloc, ret. simpl.
  destruct (update_run (__class__ self) (length σ) kw (σ ++ [deref σ (_value self)]))
    as (σ1 & Hsame & Hrun).
  { rewrite length_app. simpl. lia. }
  assert (deref (σ ++ [deref σ (_value self)]) (length σ) = deref σ (_value self))
    as Hd0.
  { unfold deref at 1. by rewrite lookup_app_r, Nat.sub_diag. }
  rewrite Hd0 in Hrun.
  destruct (same_but_snoc _ _ _ Hsame) as [d' ->]. exists (σ ++ [d']).
  split_and!; [apply extends_snoc|rewrite length_app; simpl; lia|].
  destruct (update (__class__ self) (deref σ (_value self)) kw) as [d|e].
  - destruct Hrun as [-> Hd]. split; [done|].
    rewrite lookup_app_r, Nat.sub_diag in Hd by done. by injection Hd as ->.
  - by rewrite Hrun.
Qed.





Lemma new_run cls args kw σ :
  ∃ σ', extends σ σ' ∧ length σ' ≤ S (length σ) ∧
    match constructed cls args kw with
    | Return d =>
        Structural_new cls args kw σ
        = (Return (MkStructural cls (length σ) []), σ') ∧ σ' = σ ++ [d]
    | Raise e => Structural_new cls args kw σ = (Raise e, σ')
    end.
Proof.
  unfold constructed, bound, Structural_new, keywords.
  destruct (clash ["self"] kw) as [p|].
  { exists σ. split_and!; [apply extends_refl|lia|done]. }
  destruct (apply_run cls args kw σ) as (σ' & Hext & Hlen & Hrun). exists σ'.
  split_and!; [done..|]. unfold mbind, M_bind, bind.
  destruct (applied cls args kw) as [d|e].
  - destruct Hrun as [-> ->]. done.
  - by rewrite Hrun.
Qed.

Lemma new_Return cls args kw σ self σ' :
  Structural_new cls args kw σ = (Return self, σ') →
  ∃ d, constructed cls args kw = Return d ∧ σ' = σ ++ [d]
       ∧ self = MkStructural cls (length σ) [].
Proof.
  destruct (new_run cls args kw σ) as (σ1 & _ & _ & Hrun).
  destruct (constructed cls args kw) as [d|e].
  - destruct Hrun as [-> ->]. intros [= <- <-]. by exists d.
  - by rewrite Hrun.
Qed.

Lemma call_Return (self : Structural) kw σ new_self σ' :
  __call__ self kw σ = (Return new_self, σ') →
  ∃ d, override (__class__ self) (deref σ (_value self)) kw = Return d
       ∧ σ' = σ ++ [d]
       ∧ new_self = MkStructural (__class__ self) (length σ) (_scopes self).
Proof.
  destruct (call_run self kw σ) as (σ1 & _ & _ & Hrun).
  destruct (called (__class__ self) (deref σ (_value self)) kw) as [d|e] eqn:E.
  - destruct Hrun as [-> ->]. intros [= <- <-].
    apply called_Return in E as [_ E]. by exists d.
  - by rewrite Hrun.
Qed.


Lemma deref_snoc σ d : deref (σ ++ [d]) (length σ) = d.
Proof. unfold deref. by rewrite lookup_app_r, Nat.sub_diag. Qed.

Lemma deref_extends σ σ' a : extends σ σ' → a < length σ → deref σ' a = deref σ a.
Proof.
  intros [k ->] Ha. unfold deref. by rewrite lookup_app_l.
Qed.

Lemma wf_extends σ σ' self : wf σ self → extends σ σ' → wf σ' self.
Proof.
  intros [Ha Hk Hn] Hext. split.
  - apply prefix_length in Hext. lia.
  - by rewrite (deref_extends _ _ _ Hext Ha).
  - by rewrite (deref_extends _ _ _ Hext Ha).
Qed.

(** What the schema accepts, entry by entry: a field name with [Empty],
    an instance of the class of the field, or a value that class accepts. *)
Lemma accepted_iff cls kw :
  accepted cls kw ↔
  Forall (λ kv, ∃ sig, Dict.get kv.1 (TYPEMAP cls) = Some sig
                  ∧ (kv.2 = Empty
                     ∨ ∃ v, unEmpty kv.2 = Some v
                            ∧ is_Return (instance_or_new (klazz sig) v))) kw.
Proof.
  unfold accepted. apply Forall_proper; [|done]. intros [attr val].
  unfold _process_schema_attribute. cbn [fst snd].
  destruct (Dict.get attr (TYPEMAP cls)) as [sig|].
  2:{ split; [by intros [? ?]|by intros (? & ? & _)]. }
  destruct (unEmpty val) as [v|] eqn:Ev.
  - destruct (instance_or_new (klazz sig) v) as [o'|e] eqn:E.
    + split; [|intros _; by eexists]. intros _. exists sig. split; [done|].
      right. exists v. split; [done|]. rewrite E. by eexists.
    + split; [by intros [? ?]|].
      intros (sig' & [= <-] & [->|(v' & [= <-] & Hret)]); [done|].
      rewrite E in Hret. by destruct Hret.
  - split; [|intros _; by eexists]. intros _. exists sig. split; [done|].
    left. by destruct val.
Qed.

(** The present fields of a produced composite are instances of the
    classes its schema wraps. *)
Lemma produced_well_typed `{!ObjectLaws} σ (self : Structural) :
  produced σ self → class_ok (__class__ self) →
  _value self < length σ
  ∧ well_typed (__class__ self) (deref σ (_value self)).
Proof.
  induction 1 as [cls args kw σ self σ' Hnew
                 |self kw σ new_self σ' Hp IH Hcall
                 |σ σ' self Hp IH Hext]; intros Hok.
  - apply new_Return in Hnew as (d & Hd & -> & ->). simpl in *.
    rewrite deref_snoc, length_app. split; [simpl; lia|].
    apply constructed_Return in Hd as (_ & d1 & E & Hd).
    apply (override_typed _ _ _ _ Hd).
    apply (override_args_inv cls (well_typed cls) _ _ _ (override_typed cls) E).
    destruct Hok as [Hnd Hsig]. apply well_typed_defaults; [|done].
    intros name sig o Hin. by apply (Hsig name sig Hin).
  - apply call_Return in Hcall as (d & Hd & -> & ->). simpl in *.
    rewrite deref_snoc, length_app. split; [simpl; lia|].
    apply (override_typed _ _ _ _ Hd). by apply IH.
  - destruct (IH Hok) as [Ha Ht]. split.
    + apply prefix_length in Hext. lia.
    + by rewrite (deref_extends _ _ _ Hext Ha).
Qed.

(** C3: every composite produced by construction or by functional update
    is keyed by exactly the field names of its schema (as sets, and without
    a repeated key); and a construction binds each field that no override
    supplies and that has no default to [Empty]. *)
Theorem schema_closure σ self :
  produced σ self →
  wf σ self
  ∧ ∀ cls args kw σ0,
      Structural_new cls args kw σ0 = (Return self, σ) →
      ∀ name, name ∈ field_names cls → name ∉ supplied args kw →
        (∀ sig, (name, sig) ∈ TYPEMAP cls → default sig = None) →
        Dict.get name (deref σ (_value self)) = Some None.
Proof.
  intros Hp. split.
  - induction Hp as [cls args kw σ self σ' Hnew
                    |self kw σ new_self σ' Hp IH Hcall
                    |σ σ' self Hp IH Hext].
    + apply new_Return in Hnew as (d & Hd & -> & ->).
      apply constructed_keys in Hd as [Hk Hn].
      split; simpl; rewrite ?deref_snoc; [|done..].
      rewrite length_app. simpl. lia.
    + apply call_Return in Hcall as (d & Hd & -> & ->).
      destruct IH as [Ha Hk Hn].
      split; simpl; rewrite ?deref_snoc.
      * rewrite length_app. simpl. lia.
      * by eapply override_keys.
      * by eapply override_NoDup.
    + by eapply wf_extends.
  - intros cls args kw σ0 Hnew name Hin Hsup Hno.
    apply new_Return in Hnew as (d & Hd & -> & ->). simpl.
    rewrite deref_snoc, (constructed_other _ _ _ _ _ Hd Hsup).
    by apply get_defaults_Empty.
Qed.








End construction.

(** ** Validation *)

Section validation.
Context {OM : ObjectModel}.
Implicit Types (cls : StructClass) (σ : store) (d : list (string * option Obj)).

Lemma append_assoc (a b c : string) : (a +:+ b) +:+ c = a +:+ b +:+ c.
Proof.
  induction a as [|x a IH]; [done|].
  change (String x ((a +:+ b) +:+ c) = String x (a +:+ b +:+ c)).
  by rewrite IH.
Qed.

Lemma names_head (s post : string) : names (s +:+ post) s.
Proof. by exists EmptyString, post. Qed.

Lemma names_bracket (a s post : string) : names (a +:+ "[" +:+ s +:+ post) s.
Proof. exists (a +:+ "["), post. symmetry. apply append_assoc. Qed.

Lemma scopes_run (self : Structural) σ :
  scopes self σ = (Return (scope_chain self (deref σ (_value self))), σ).
Proof. done. Qed.

Lemma getitem_run a k σ v :
  Dict.get k (deref σ a) = Some v → getitem a k σ = (Return v, σ).
Proof. unfold getitem. by intros ->. Qed.

(** The loop of [check] returns the verdict on the first entry that does
    not pass, and success when every entry passes. *)
Lemma check_loop_run (self : Structural) σ tm :
  (∀ entry, entry ∈ tm → entry.1 ∈ Dict.keys (deref σ (_value self))) →
  ∃ tc, check_loop self tm σ = (Return tc, σ)
    ∧ (tc = success ↔
       Forall (passes (scope_chain self (deref σ (_value self)))
                 (deref σ (_value self))) tm)
    ∧ ∀ msg, tc = failure msg →
        ∃ tm1 name sig tm2, tm = tm1 ++ (name, sig) :: tm2
          ∧ Forall (passes (scope_chain self (deref σ (_value self)))
                      (deref σ (_value self))) tm1
          ∧ ((required_missing (deref σ (_value self)) (name, sig)
              ∧ msg = __name__ (__class__ self) +:+ "[" +:+ name
                      +:+ "] is required.")
             ∨ (∃ o, Dict.get name (deref σ (_value self)) = Some (Some o)
                ∧ ok (obj_check (in_scope o
                        (scope_chain self (deref σ (_value self))))) = false
                ∧ msg = __name__ (__class__ self) +:+ "[" +:+ name
                        +:+ "] failed: "
                        +:+ message (obj_check (in_scope o
                              (scope_chain self (deref σ (_value self))))))).
Proof.
  set (d := deref σ (_value self)). set (sc := scope_chain self d).
  induction tm as [|[name sig] tm IH]; intros Hkeys; simpl.
  - exists success. split_and!; [done|done|done].
  - destruct IH as (tc & Hrun & Hok & Hfail).
    { intros entry Hin. apply Hkeys. by right. }
    assert (is_Some (Dict.get name d)) as [v Hv].
    { apply get_Some_keys. apply (Hkeys (name, sig)). by left. }
    unfold mbind, M_bind, bind. rewrite (getitem_run _ _ _ _ Hv).
    destruct v as [o|].
    + rewrite scopes_run. fold d sc.
      destruct (ok (obj_check (in_scope o sc))) eqn:Eok.
      * exists tc. split_and!; [done| |].
        -- rewrite Hok, Forall_cons. split; [|by intros [_ ?]].
           intros Hall. split; [|done]. split.
           ++ intros [_ Hm]. simpl in Hm. congruence.
           ++ intros (o' & Ho' & Hf). simpl in Ho'. congruence.
        -- intros msg Hmsg.
           destruct (Hfail msg Hmsg) as (tm1 & n & sg & tm2 & -> & Hall & Hwhy).
           exists ((name, sig) :: tm1), n, sg, tm2. split_and!; [done| |done].
           apply Forall_cons. split; [|done]. split.
           ++ intros [_ Hm]. simpl in Hm. congruence.
           ++ intros (o' & Ho' & Hf). simpl in Ho'. congruence.
      * eexists. split_and!; [done| |].
        -- split; [done|]. intros [[_ Hnf] _]%Forall_cons. destruct Hnf.
           by exists o.
        -- intros msg [= <-]. exists [], name, sig, tm.
           split_and!; [done|constructor|]. right. by exists o.
    + destruct (required sig) eqn:Ereq.
      * eexists. split_and!; [done| |].
        -- split; [done|]. intros [[Hnm _] _]%Forall_cons. by destruct Hnm.
        -- intros msg [= <-]. exists [], name, sig, tm.
           split_and!; [done|constructor|]. by left.
      * exists tc. split_and!; [done| |].
        -- rewrite Hok, Forall_cons. split; [|by intros [_ ?]].
           intros Hall. split; [|done]. split.
           ++ intros [Hr _]. simpl in Hr. congruence.
           ++ intros (o' & Ho' & Hf). simpl in Ho'. congruence.
        -- intros msg Hmsg.
           destruct (Hfail msg Hmsg) as (tm1 & n & sg & tm2 & -> & Hall & Hwhy).
           exists ((name, sig) :: tm1), n, sg, tm2. split_and!; [done| |done].
           apply Forall_cons. split; [|done]. split.
           ++ intros [Hr _]. simpl in Hr. congruence.
           ++ intros (o' & Ho' & Hf). simpl in Ho'. congruence.
Qed.

Lemma prefix_append (s post : string) : String.prefix s (s +:+ post) = true.
Proof.
  induction s as [|c s IH]; [by destruct post|].
  change (String.prefix (String c s) (String c (s +:+ post)) = true).
  simpl. destruct (Ascii.ascii_dec c c); done.
Qed.

Lemma occurs_prefix (s msg : string) : String.prefix s msg = true → occurs s msg = true.
Proof. destruct msg; simpl; by intros ->. Qed.

Lemma names_occurs (msg s : string) : names msg s → occurs s msg = true.
Proof.
  intros (pre & post & ->). induction pre as [|c pre IH].
  - change (occurs s (s +:+ post) = true). apply occurs_prefix, prefix_append.
  - change (occurs s (String c (pre +:+ s +:+ post)) = true).
    simpl. rewrite IH. apply orb_true_r.
Qed.

(** C4, as the code has it: on a composite keyed by its schema, [check]
    returns its verdict as a value and leaves the store as it was.  It
    succeeds exactly when no required field is [Empty] and every present
    field passes its own check in the scope chain of the composite; so it
    fails whenever a required field is [Empty].  A failure is the verdict
    on the first entry of the schema, in iteration order, that does not
    pass, and its message names the class and that field. *)
Theorem check_first_failure σ (self : Structural) :
  wf σ self →
  ∃ tc, check self σ = (Return tc, σ)
    ∧ (tc = success ↔
       Forall (passes (scope_chain self (deref σ (_value self)))
                 (deref σ (_value self))) (TYPEMAP (__class__ self)))
    ∧ (tc = success ↔
       present_checks_succeed σ self
       ∧ ¬ Exists (required_missing (deref σ (_value self)))
             (TYPEMAP (__class__ self)))
    ∧ (Exists (required_missing (deref σ (_value self)))
         (TYPEMAP (__class__ self)) → ok tc = false)
    ∧ ∀ msg, tc = failure msg →
        ∃ tm1 name sig tm2,
          TYPEMAP (__class__ self) = tm1 ++ (name, sig) :: tm2
          ∧ Forall (passes (scope_chain self (deref σ (_value self)))
                      (deref σ (_value self))) tm1
          ∧ ¬ passes (scope_chain self (deref σ (_value self)))
                (deref σ (_value self)) (name, sig)
          ∧ names msg (__name__ (__class__ self))
          ∧ names msg name.
Proof.
  intros [Ha Hk Hn].
  assert (∀ name, name ∈ Dict.keys (TYPEMAP (__class__ self)) ↔
            name ∈ Dict.keys (deref σ (_value self))) as Hkeys.
  { intros name. unfold key_set, field_names in Hk.
    rewrite <-(elem_of_list_to_set (C:=gset string)), <-Hk.
    by rewrite elem_of_list_to_set. }
  destruct (check_loop_run self σ (TYPEMAP (__class__ self)))
    as (tc & Hrun & Hok & Hfail).
  { intros entry Hin. apply Hkeys. unfold Dict.keys.
    apply list_elem_of_fmap. by exists entry. }
  assert (Exists (required_missing (deref σ (_value self)))
            (TYPEMAP (__class__ self)) → tc ≠ success) as Hmiss.
  { intros Hex Hs. apply Hok in Hs. apply Exists_exists in Hex as (entry & Hin & Hm).
    rewrite Forall_forall in Hs. by destruct (Hs entry Hin) as [? _]. }
  exists tc. split_and!; [done|done| | |].
  - rewrite Hok. split.
    + intros Hall. split.
      * intros name o Hget.
        destruct (ok (obj_check _)) eqn:Eok; [done|].
        assert (name ∈ Dict.keys (TYPEMAP (__class__ self))) as Hin.
        { apply Hkeys, get_Some_keys. by eexists. }
        apply list_elem_of_fmap in Hin as ([n sig] & -> & Hin).
        rewrite Forall_forall in Hall. destruct (Hall _ Hin) as [_ Hnf].
        destruct Hnf. by exists o.
      * intros Hex. apply Exists_exists in Hex as (entry & Hin & Hm).
        rewrite Forall_forall in Hall. by destruct (Hall entry Hin) as [? _].
    + intros [Hpres Hnone]. apply Forall_forall. intros entry Hin. split.
      * intros Hm. apply Hnone, Exists_exists. by exists entry.
      * intros (o & Hget & Hf). rewrite (Hpres _ _ Hget) in Hf. done.
  - intros Hex. destruct tc; [by destruct (Hmiss Hex)|done].
  - intros msg Hmsg.
    destruct (Hfail msg Hmsg) as (tm1 & name & sig & tm2 & Htm & Hall & Hwhy).
    exists tm1, name, sig, tm2. split_and!; [done|done|..].
    + destruct Hwhy as [[Hm _]|(o & Hget & Hf & _)].
      * by intros [? _].
      * intros [_ Hnf]. destruct Hnf. by exists o.
    + destruct Hwhy as [[_ ->]|(o & _ & _ & ->)]; apply names_head.
    + destruct Hwhy as [[_ ->]|(o & _ & _ & ->)]; apply names_bracket.
Qed.

End validation.

(** ** Interpolation *)

Section interpolation.
Context {OM : ObjectModel}.
Implicit Types (cls : StructClass) (σ : store) (d : list (string * option Obj)).

Lemma set_absent {V} k (v : V) (l : list (string * V)) :
  k ∉ Dict.keys l → Dict.set k v l = l ++ [(k, v)].
Proof.
  unfold Dict.keys. induction l as [|[k' v'] l IH]; simpl; [done|].
  intros [Hne Hin]%not_elem_of_cons. rewrite decide_False by done.
  f_equal. by apply IH.
Qed.


Lemma get_elem_of {V} (l : list (string * V)) k v :
  NoDup (Dict.keys l) → Dict.get k l = Some v ↔ (k, v) ∈ l.
Proof.
  unfold Dict.keys. induction l as [|[k' v'] l IH]; simpl.
  - intros _. split; [done|by intros ?%elem_of_nil].
  - intros [Hk Hl]%NoDup_cons. rewrite elem_of_cons.
    destruct (decide (k = k')) as [->|Hne].
    + split; [intros [= ->]; by left|].
      intros [[= ->]|Hin]; [done|]. destruct Hk.
      apply list_elem_of_fmap. by exists (k', v).
    + rewrite IH by done. naive_solver.
Qed.

Lemma present_NoDup d : NoDup (Dict.keys d) → NoDup (Dict.keys (present d)).
Proof.
  unfold Dict.keys, present. induction d as [|[k [o|]] d IH]; simpl.
  - constructor.
  - intros [Hk Hd]%NoDup_cons. apply NoDup_cons. split; [|by apply IH].
    intros Hin. apply Hk. apply list_elem_of_fmap in Hin as ([k' o'] & -> & Hin).
    apply list_elem_of_omap in Hin as ([k2 v2] & Hin & Heq). simpl in *.
    destruct v2; simplify_eq/=. apply list_elem_of_fmap. by eexists (_, _).
  - intros [Hk Hd]%NoDup_cons. by apply IH.
Qed.

(** The innermost frame is built from the fields that are not [Empty]. *)
Lemma get_present d name o :
  NoDup (Dict.keys d) →
  Dict.get name (Dict.of_items (present d)) = Some o
  ↔ Dict.get name d = Some (Some o).
Proof.
  intros Hnd. rewrite of_items_NoDup by (by apply present_NoDup).
  rewrite !get_elem_of by (done || by apply present_NoDup).
  unfold present. rewrite list_elem_of_omap. split.
  - intros ([k v] & Hin & Heq). simpl in Heq. destruct v; by simplify_eq/=.
  - intros Hin. by exists (name, Some o).
Qed.

Lemma interpolate_step_eq sc (acc : list (string * pyvalue) * gset string) kv :
  interpolate_step sc acc kv
  = (Dict.set kv.1 (to_py (interpolated_field sc kv.2)) acc.1,
     acc.2 ∪ list_to_set (unbound_of sc kv.2)).
Proof.
  unfold interpolate_step. destruct kv as [k [o|]]; simpl.
  - by destruct (obj_interpolate (in_scope o sc)).
  - by rewrite union_empty_r_L.
Qed.

(** The loop of [interpolate] over a mapping with distinct keys builds the
    keyword arguments field by field and gathers the unbound names. *)
Lemma interpolate_loop sc d (acc : list (string * pyvalue) * gset string) :
  NoDup (Dict.keys d) →
  (∀ k, k ∈ Dict.keys d → k ∉ Dict.keys acc.1) →
  foldl (interpolate_step sc) acc d
  = (acc.1 ++ (prod_map id (to_py ∘ interpolated_field sc) <$> d),
     acc.2 ∪ list_to_set (d ≫= λ kv, unbound_of sc kv.2)).
Proof.
  revert acc.
  induction d as [|[k v] d IH]; intros [data ub] Hnd Hfresh; simpl.
  - by rewrite app_nil_r, union_empty_r_L.
  - change (NoDup (k :: Dict.keys d)) in Hnd.
    apply NoDup_cons in Hnd as [Hk Hd].
    assert (∀ k', k' ∈ Dict.keys d → k' ∉ Dict.keys data) as Hfresh'.
    { intros k' Hin. apply (Hfresh k'). by right. }
    assert (k ∉ Dict.keys data) as Hk'.
    { apply (Hfresh k). by left. }
    rewrite interpolate_step_eq, IH; simpl; [|done|].
    + rewrite set_absent by done.
      rewrite <-app_assoc. simpl. f_equal.
      rewrite list_to_set_app_L. by rewrite (assoc_L (∪)).
    + intros k' Hin. rewrite elem_of_keys_set. intros [->|Hin']; [done|].
      by apply (Hfresh' k').
Qed.

Lemma override_interpolated `{!ObjectLaws} cls sc d d0 :
  (∀ name v, (name, v) ∈ d → name ∈ Dict.keys (TYPEMAP cls)) →
  (∀ name o, (name, Some o) ∈ d →
     ∃ sig, Dict.get name (TYPEMAP cls) = Some sig
            ∧ isinstance o (klazz sig) = true) →
  override cls d0 (prod_map id (to_py ∘ interpolated_field sc) <$> d)
  = Return (foldl (λ acc kv, Dict.set kv.1 (interpolated_field sc kv.2) acc) d0 d).
Proof.
  revert d0. induction d as [|[k v] d IH]; intros d0 Hknown Htyped; simpl; [done|].
  assert (_process_schema_attribute cls k (to_py (interpolated_field sc v))
          = Return (interpolated_field sc v)) as ->.
  { unfold _process_schema_attribute. destruct v as [o|]; simpl.
    - destruct (Htyped k o) as (sig & -> & Hinst); [by left|]. simpl.
      by rewrite interpolate_isinstance, in_scope_isinstance, Hinst.
    - assert (is_Some (Dict.get k (TYPEMAP cls))) as [sig ->]; [|done].
      apply get_Some_keys. apply (Hknown k None). by left. }
  apply IH.
  - intros name v' Hin. apply (Hknown name v'). by right.
  - intros name o Hin. apply Htyped. by right.
Qed.

Lemma clash_single {A} p (kw : list (string * A)) :
  clash [p] kw = if decide (p ∈ kw.*1) then Some p else None.
Proof.
  destruct (decide (p ∈ kw.*1)) as [Hin|Hin].
  - destruct (clash [p] kw) as [q|] eqn:E.
    + by apply clash_Some in E as [->%list_elem_of_singleton _].
    + rewrite clash_None in E. destruct (E p); [by left|done].
  - apply clash_None. by intros q ->%list_elem_of_singleton.
Qed.

Lemma clash_value {A} (kw : list (string * A)) :
  "cls" ∉ kw.*1 →
  clash ["cls"; "value"] kw
  = if decide ("value" ∈ kw.*1) then Some "value" else None.
Proof.
  intros Hcls. destruct (decide ("value" ∈ kw.*1)) as [Hin|Hin].
  - destruct (clash _ kw) as [q|] eqn:E.
    + apply clash_Some in E as [Hq Hin']. f_equal.
      apply elem_of_cons in Hq as [-> | ->%list_elem_of_singleton]; done.
    + rewrite clash_None in E. destruct (E "value"); [|done]. right. by left.
  - apply clash_None. intros q Hq.
    apply elem_of_cons in Hq as [-> | ->%list_elem_of_singleton]; done.
Qed.

(** A construction from keywords alone fails on the first of [self],
    [cls], [value] among them, and runs the loop when there is none. *)
Lemma constructed_keywords cls (kw : list (string * pyvalue)) :
  constructed cls [] kw
  = match keyword_error kw.*1 with
    | Some e => Raise e
    | None => override cls (defaults cls) kw
    end.
Proof.
  unfold constructed, applied, update, bound, keyword_error.
  rewrite !clash_single. destruct (decide ("self" ∈ kw.*1)); [done|].
  destruct (decide ("cls" ∈ kw.*1)); [done|]. simpl.
  rewrite clash_value by done. by destruct (decide ("value" ∈ kw.*1)).
Qed.

Lemma keyword_error_ext (l l' : list string) :
  (∀ name, name ∈ l ↔ name ∈ l') → keyword_error l = keyword_error l'.
Proof.
  intros Hiff. unfold keyword_error.
  repeat case_decide; first [done|by rewrite ?Hiff in *|by rewrite <-?Hiff in *].
Qed.

Lemma keyword_error_None (names : list string) :
  keyword_error names = None ↔ bindable names.
Proof.
  unfold keyword_error, bindable, reserved. rewrite Forall_forall.
  repeat case_decide; split; try done.
  - intros Hb. destruct (Hb "self"); [done|by left].
  - intros Hb. destruct (Hb "cls"); [done|]. right. by left.
  - intros Hb. destruct (Hb "value"); [done|]. do 2 right. by left.
  - intros _ name Hin Hres.
    repeat (apply elem_of_cons in Hres as [->|Hres]; [done|]).
    by apply elem_of_nil in Hres.
Qed.

(** What [interpolate] constructs: the error of its keywords, or
    [interpolation]. *)
Lemma interpolated_eq `{!ObjectLaws} σ (self : Structural) :
  wf σ self →
  well_typed (__class__ self) (deref σ (_value self)) →
  interpolated self (deref σ (_value self))
  = match keyword_error (Dict.keys (TYPEMAP (__class__ self))) with
    | Some e => Raise e
    | None => Return (interpolation self (deref σ (_value self)))
    end.
Proof.
  intros [Ha Hk Hn] Htyped. unfold interpolated, interpolation.
  set (d := deref σ (_value self)) in *.
  set (sc := scope_chain self d).
  set (cls := __class__ self) in *.
  assert (∀ name, name ∈ Dict.keys d ↔ name ∈ Dict.keys (TYPEMAP cls)) as Hkeys.
  { intros name. unfold key_set, field_names in Hk.
    rewrite <-(elem_of_list_to_set (C:=gset string)), Hk.
    by rewrite elem_of_list_to_set. }
  rewrite constructed_keywords.
  assert ((prod_map id (to_py ∘ interpolated_field sc) <$> d).*1 = Dict.keys d)
    as ->.
  { unfold Dict.keys. rewrite <-list_fmap_compose. apply list_fmap_ext.
    by intros ? [] ?. }
  rewrite (keyword_error_ext _ _ Hkeys).
  destruct (keyword_error (Dict.keys (TYPEMAP cls))); [done|].
  apply override_interpolated.
  - intros name v Hin. apply Hkeys. apply list_elem_of_fmap. by exists (name, v).
  - intros name o Hin. apply Htyped. by apply get_elem_of.
Qed.

(** [interpolate] allocates at most one dictionary; it returns when the
    construction from the interpolated fields returns, and raises what that
    construction raises. *)
Lemma interpolate_outcome σ (self : Structural) :
  NoDup (Dict.keys (deref σ (_value self))) →
  ∃ σ', extends σ σ' ∧ length σ' ≤ S (length σ) ∧
    match interpolated self (deref σ (_value self)) with
    | Return d' =>
        interpolate self σ
        = (Return (MkStructural (__class__ self) (length σ) [],
                   elements (list_to_set (C:=gset string)
                               (deref σ (_value self) ≫= λ kv,
                                  unbound_of
                                    (scope_chain self (deref σ (_value self)))
                                    kv.2))),
           σ')
        ∧ σ' = σ ++ [d']
    | Raise e => interpolate self σ = (Raise e, σ')
    end.
Proof.
  intros Hn. unfold interpolated.
  set (d := deref σ (_value self)) in *.
  set (sc := scope_chain self d).
  set (cls := __class__ self) in *.
  assert (interpolate self σ
          = match Structural_new cls []
                    (prod_map id (to_py ∘ interpolated_field sc) <$> d) σ with
            | (Return a, σ') =>
                (Return (a, elements (list_to_set (C:=gset string)
                                        (d ≫= λ kv, unbound_of sc kv.2))), σ')
            | (Raise e, σ') => (Raise e, σ')
            end) as ->.
  { unfold interpolate, mbind, M_bind, bind. rewrite scopes_run.
    unfold items at 1. cbv beta iota. fold d sc.
    rewrite interpolate_loop; [|done|by intros ? _ ?%elem_of_nil].
    cbn [fst snd app]. fold cls. by rewrite union_empty_l_L. }
  destruct (new_run cls [] (prod_map id (to_py ∘ interpolated_field sc) <$> d) σ)
    as (σ' & Hext & Hlen & Hrun).
  exists σ'. split_and!; [done..|].
  destruct (constructed cls [] _) as [d'|e].
  - destruct Hrun as [Hrun ->]. by rewrite Hrun.
  - by rewrite Hrun.
Qed.





End interpolation.

(** ** Path lookup *)

Section lookup.
Context {OM : ObjectModel}.
Implicit Types (cls : StructClass) (σ : store) (d : list (string * option Obj)).

Lemma wf_schema_keys σ (self : Structural) name :
  wf σ self →
  name ∈ Dict.keys (TYPEMAP (__class__ self))
  ↔ name ∈ Dict.keys (deref σ (_value self)).
Proof.
  intros [_ Hk _]. unfold key_set, field_names in Hk.
  rewrite <-(elem_of_list_to_set (C:=gset string)), <-Hk.
  by rewrite elem_of_list_to_set.
Qed.

(** C6: the outcomes of [find], none of which changes the store.  A first
    component that is not a dereference raises the naming error; a
    dereferenced name that is not in the schema, or whose field is [Empty],
    raises not-found; with no remaining path the field is returned, placed
    in the scope chain; with a remaining path, a field that is not
    [Namable] raises the unnamable error and a [Namable] field, placed in
    the scope chain, is asked for the remaining path.  The three errors are
    different exceptions. *)
Theorem find_cases σ (self : Structural) (ref : Ref) :
  wf σ self →
  (∀ v, action ref = Index v → find self ref σ = (Raise NamingError, σ))
  ∧ (∀ name, action ref = Dereference name →
       name ∉ Dict.keys (TYPEMAP (__class__ self)) →
       find self ref σ = (Raise NotFound, σ))
  ∧ (∀ name, action ref = Dereference name →
       Dict.get name (deref σ (_value self)) = Some None →
       find self ref σ = (Raise NotFound, σ))
  ∧ (∀ name namable, action ref = Dereference name →
       Dict.get name (deref σ (_value self)) = Some (Some namable) →
       (rest ref = [] →
        find self ref σ
        = (Return (in_scope namable (scope_chain self (deref σ (_value self)))), σ))
       ∧ (∀ c cs, rest ref = c :: cs →
          (is_Namable namable = false →
           find self ref σ = (Raise Unnamable, σ))
          ∧ (is_Namable namable = true →
             find self ref σ
             = (obj_find
                  (in_scope namable (scope_chain self (deref σ (_value self))))
                  (MkRef c cs), σ))))
  ∧ NamingError ≠ NotFound ∧ NotFound ≠ Unnamable ∧ NamingError ≠ Unnamable.
Proof.
  intros Hwf. unfold find, is_dereference, action_value.
  split_and!; try done.
  - by intros v ->.
  - intros name -> Hun. simpl.
    assert (Dict.mem name (TYPEMAP (__class__ self)) = false) as ->; [|done].
    apply not_true_is_false. by rewrite mem_keys.
  - intros name -> Hget. simpl.
    assert (Dict.mem name (TYPEMAP (__class__ self)) = true) as ->.
    { apply mem_keys, (wf_schema_keys σ self name Hwf), get_Some_keys. by eexists. }
    simpl. unfold mbind, M_bind, bind. by rewrite (getitem_run _ _ _ _ Hget).
  - intros name namable -> Hget. simpl.
    assert (Dict.mem name (TYPEMAP (__class__ self)) = true) as ->.
    { apply mem_keys, (wf_schema_keys σ self name Hwf), get_Some_keys. by eexists. }
    simpl. unfold mbind, M_bind, bind. rewrite (getitem_run _ _ _ _ Hget).
    split.
    + by intros ->.
    + intros c cs ->. split; by intros ->.
Qed.

End lookup.

(** ** Loading JSON *)

Section json.
Context {OM : ObjectModel}.
Implicit Types (cls : StructClass) (σ : store) (values : list (string * Raw)).





Lemma filter_keys cls values k :
  k ∈ Dict.keys (_filter_against_schema cls values)
  ↔ k ∈ Dict.keys values ∧ k ∈ Dict.keys (TYPEMAP cls).
Proof.
  unfold _filter_against_schema. rewrite elem_of_keys_of_items.
  unfold Dict.keys at 1. rewrite !list_elem_of_fmap. split.
  - intros ([k' r] & -> & [Hin Hmem]%list_elem_of_filter). simpl in *. split.
    + by exists (k', r).
    + by apply mem_keys, Is_true_true.
  - intros [([k' r] & -> & Hin) Hk]. exists (k', r). split; [done|].
    apply list_elem_of_filter. split; [|done]. by apply Is_true_true, mem_keys.
Qed.



End json.

(** ** Equality *)

Section equality.
Context {OM : ObjectModel}.
Implicit Types (cls : StructClass) (σ : store) (d : list (string * option Obj)).



Lemma well_typed_extends σ σ' (self : Structural) :
  wf σ self → extends σ σ' →
  well_typed (__class__ self) (deref σ (_value self)) →
  well_typed (__class__ self) (deref σ' (_value self)).
Proof.
  intros [Ha _ _] Hext Ht. by rewrite (deref_extends _ _ _ Hext Ha).
Qed.


End equality.

(** ** Serialized schemas *)

Section serialization.
Context {OM : ObjectModel}.

Lemma init_ok `{!ObjectLaws} cls req dflt sig :
  TypeSignature_init cls req dflt = Return sig → signature_ok sig.
Proof.
  unfold TypeSignature_init, signature_ok.
  destruct (unEmpty dflt) as [v|]; [|by intros [= <-]].
  destruct (instance_or_new cls v) as [d0|] eqn:E; [|done].
  intros [= <-] d [= <-]. simpl.
  unfold instance_or_new in E. destruct v as [r|o].
  - by eapply new_isinstance.
  - destruct (isinstance o cls) eqn:Ei; [by injection E as ->|].
    by eapply new_isinstance.
Qed.

Lemma deserialize_serialize `{!ObjectLaws} type_dict (sig : TypeSignature) :
  round_trips type_dict (klazz sig) →
  signature_ok sig →
  ∃ sig', deserialize (serialize sig) type_dict = Return sig'
    ∧ TypeSignature_eq sig sig' = true
    ∧ required sig' = required sig
    ∧ empty sig' = empty sig
    ∧ serialize_type (klazz sig') = serialize_type (klazz sig)
    ∧ default_eq (default sig) (default sig') = true.
Proof.
  intros (k' & Hnew & Hdescr & Hwrap) Hok.
  unfold deserialize, serialize, empty. simpl. rewrite Hnew.
  destruct sig as [k req [d|]]; simpl in *.
  - destruct (Hwrap d (Hok d eq_refl)) as (d' & Hd' & Heq). rewrite Hd'.
    unfold TypeSignature_init. simpl.
    rewrite (new_isinstance _ _ _ Hd').
    eexists. split; [done|]. unfold TypeSignature_eq, empty. simpl.
    rewrite Hdescr, Heq, !bool_decide_eq_true_2 by done. done.
  - eexists. split; [done|]. unfold TypeSignature_eq, empty. simpl.
    rewrite Hdescr, !bool_decide_eq_true_2 by done. done.
Qed.

(** C8: a signature whose wrapped type the registry carries, and whose
    default is an instance of that type, is deserialized from its
    serialized form into a signature equal to it: the same required flag,
    the same presence of a default, an equal default and the same type
    descriptor.  A schema of such signatures comes back from
    [StructFactory.create] with its name, its field names and a [TYPEMAP]
    equal to the original. *)
Theorem signature_round_trip `{!ObjectLaws} type_dict (sig : TypeSignature)
  (name : string) (typemap : list (string * TypeSignature)) :
  round_trips type_dict (klazz sig) →
  signature_ok sig →
  (∃ sig', deserialize (serialize sig) type_dict = Return sig'
     ∧ TypeSignature_eq sig sig' = true
     ∧ required sig' = required sig
     ∧ empty sig' = empty sig
     ∧ serialize_type (klazz sig') = serialize_type (klazz sig)
     ∧ default_eq (default sig) (default sig') = true)
  ∧ (NoDup (Dict.keys typemap) →
     Forall (λ entry, round_trips type_dict (klazz entry.2) ∧ signature_ok entry.2)
       typemap →
     ∃ cls, StructFactory_create type_dict name (attributes_to_parameters typemap)
            = Return cls
       ∧ __name__ cls = name
       ∧ Dict.keys (TYPEMAP cls) = Dict.keys typemap
       ∧ dict_eq TypeSignature_eq typemap (TYPEMAP cls) = true).
Proof.
  intros Hrt Hok. split; [by apply deserialize_serialize|].
  intros Hnd Hall. unfold StructFactory_create, attributes_to_parameters.
  assert (∃ tm', deserialize_all type_dict (prod_map id serialize <$> typemap)
                 = Return tm'
            ∧ tm'.*1 = typemap.*1
            ∧ Forall2 (λ a b, TypeSignature_eq a.2 b.2 = true) typemap tm')
    as (tm' & -> & Hkeys & Heq).
  { clear Hnd. induction typemap as [|[attr s0] tm IH].
    - by exists [].
    - apply Forall_cons in Hall as [[Hrt0 Hok0] Hall].
      destruct (deserialize_serialize type_dict s0 Hrt0 Hok0) as (s' & Hs0 & Hs' & _).
      destruct (IH Hall) as (tm' & Htm & Hk & Hf).
      exists ((attr, s') :: tm'). split_and!.
      + rewrite fmap_cons.
        change (match deserialize (serialize s0) type_dict with
                | Raise e => Raise e
                | Return sig =>
                    match deserialize_all type_dict (prod_map id serialize <$> tm) with
                    | Raise e => Raise e
                    | Return typemap => Return ((attr, sig) :: typemap)
                    end
                end = Return ((attr, s') :: tm')).
        by rewrite Hs0, Htm.
      + rewrite !fmap_cons. by f_equal.
      + by constructor. }
  eexists. split; [done|]. simpl.
  assert (NoDup tm'.*1) as Hnd' by (by rewrite Hkeys).
  rewrite of_items_NoDup by done. split_and!; [done|done|].
  unfold dict_eq. apply andb_true_intro. split.
  - apply bool_decide_eq_true_2. by eapply Forall2_length.
  - apply forallb_forall. intros [k s1] Hin%list_elem_of_In. simpl.
    apply list_elem_of_lookup in Hin as [i Hi].
    destruct (Forall2_lookup_l _ _ _ _ _ Heq Hi) as ([k' s2] & Hi' & Hs).
    assert (k' = k) as ->.
    { assert (tm'.*1 !! i = Some k') as H1 by (by rewrite list_lookup_fmap, Hi').
      assert (typemap.*1 !! i = Some k) as H2 by (by rewrite list_lookup_fmap, Hi).
      rewrite Hkeys in H1. congruence. }
    assert (Dict.get k tm' = Some s2) as ->.
    { apply get_elem_of; [done|]. by eapply list_elem_of_lookup_2. }
    done.
Qed.

End serialization.

(** ** Placeholder cycles *)

Module MustacheFacts.
Import Mustache.

Lemma resolve_nil fuel chain active :
  resolve (S fuel) chain active [] = Some ([], []).
Proof. done. Qed.

Lemma resolve_cons fuel chain active p t :
  resolve (S fuel) chain active (p :: t)
  = r ← match p with
        | Lit s => Some ([Lit s], [])
        | Var name => resolve_var fuel chain active name
        end;
    rs ← resolve (S fuel) chain active t;
    Some (r.1 ++ rs.1, r.2 ++ rs.2).
Proof. done. Qed.

Lemma lookup_bound chain name t :
  lookup chain name = Some t → name ∈ bound_names chain.
Proof.
  unfold bound_names. induction chain as [|f chain IH]; simpl; [done|].
  destruct (Dict.get name f) eqn:E.
  - intros _. apply elem_of_app. left. apply get_Some_keys. by eexists.
  - intros H. apply elem_of_app. right. by apply IH.
Qed.

(** The resolution returns whenever the fuel exceeds the number of bound
    names that are not active yet. *)
Lemma resolve_total chain fuel active t :
  NoDup active →
  (∀ x, x ∈ active → x ∈ bound_names chain) →
  length (bound_names chain) < fuel + length active →
  is_Some (resolve fuel chain active t).
Proof.
  revert active t. induction fuel as [|fuel IH]; intros active t Hnd Hsub Hlen.
  - assert (length active ≤ length (bound_names chain)); [|lia].
    apply submseteq_length, NoDup_submseteq; done.
  - induction t as [|p t IHt]; [by eexists|].
    rewrite resolve_cons. destruct IHt as [rs ->].
    assert (is_Some (match p with
                     | Lit s => Some ([Lit s], [])
                     | Var name => resolve_var fuel chain active name
                     end)) as [r ->]; [|by eexists].
    destruct p as [s|name]; [by eexists|]. unfold resolve_var.
    destruct (decide (name ∈ active)); [by eexists|].
    destruct (lookup chain name) as [bound|] eqn:E; [|by eexists].
    apply IH.
    + by apply NoDup_cons.
    + intros x [->|Hx]%elem_of_cons; [by eapply lookup_bound|by apply Hsub].
    + simpl. lia.
Qed.

Lemma resolve_enough chain t : is_Some (resolve (enough chain) chain [] t).
Proof.
  apply resolve_total; [constructor|by intros ? ?%elem_of_nil|].
  unfold enough. simpl. lia.
Qed.

Lemma resolve_elem fuel chain active t t' ub n :
  resolve (S fuel) chain active t = Some (t', ub) → n ∈ vars t →
  ∃ r, resolve_var fuel chain active n = Some r ∧ ∀ x, x ∈ r.2 → x ∈ ub.
Proof.
  revert t' ub. induction t as [|p t IH]; intros t' ub.
  - by intros _ ?%elem_of_nil.
  - rewrite resolve_cons.
    destruct (match p with
              | Lit s => Some ([Lit s], [])
              | Var name => resolve_var fuel chain active name
              end) as [r|] eqn:Er; [|done].
    destruct (resolve (S fuel) chain active t) as [[t1 ub1]|] eqn:Et; [|done].
    simpl. intros [= <- <-] Hin.
    destruct p as [s|name]; simpl in Hin.
    + destruct (IH _ _ eq_refl Hin) as (r' & Hr' & Hsub).
      exists r'. split; [done|]. intros x Hx. apply elem_of_app. right. by apply Hsub.
    + apply elem_of_cons in Hin as [->|Hin].
      * exists r. split; [done|]. intros x Hx. apply elem_of_app. by left.
      * destruct (IH _ _ eq_refl Hin) as (r' & Hr' & Hsub).
        exists r'. split; [done|]. intros x Hx. apply elem_of_app. right.
        by apply Hsub.
Qed.

(** A name met again during its own resolution is reported unbound. *)
Lemma revisited_unbound chain active n r :
  revisits chain active n r →
  ∀ fuel t t' ub,
    resolve fuel chain active t = Some (t', ub) → n ∈ vars t → r ∈ ub.
Proof.
  induction 1 as [active n Hin|active n m r Hn (bt & Hbt & Hm) Hrev IH];
    intros [|fuel] t t' ub Hres Hvar; try done.
  - destruct (resolve_elem _ _ _ _ _ _ _ Hres Hvar) as (r & Hr & Hsub).
    unfold resolve_var in Hr. rewrite decide_True in Hr by done.
    injection Hr as <-. apply Hsub. by left.
  - destruct (resolve_elem _ _ _ _ _ _ _ Hres Hvar) as ([t1 ub1] & Hr & Hsub).
    unfold resolve_var in Hr. rewrite decide_False, Hbt in Hr by done.
    apply Hsub. simpl. by eapply IH.
Qed.

(** A path of dependencies that leads back to an active name or into
    itself revisits that name. *)
Lemma path_revisits chain active p ps r :
  NoDup (p :: ps) →
  (∀ x, x ∈ p :: ps → x ∉ active) →
  chained chain p ps →
  depends chain (from_option id p (last (p :: ps))) r →
  r ∈ active ∨ r ∈ p :: ps →
  revisits chain active p r.
Proof.
  revert active p. induction ps as [|q ps IH]; intros active p Hnd Hfresh Hch Hdep Hr.
  - simpl in Hdep. eapply revisits_later; [apply Hfresh; by left|done|].
    apply revisits_now. destruct Hr as [Hr|Hr%list_elem_of_singleton].
    + by right.
    + subst. by left.
  - destruct Hch as [Hpq Hch]. apply NoDup_cons in Hnd as [Hp Hnd].
    eapply revisits_later; [apply Hfresh; by left|done|].
    apply IH; [done| |done| |].
    + intros x Hx [->|Hin]%elem_of_cons; [done|].
      apply (Hfresh x); [by right|done].
    + rewrite last_cons_cons in Hdep.
      destruct (last (q :: ps)) as [x|] eqn:El; [done|].
      by apply last_None in El.
    + destruct Hr as [Hr|[->|Hr]%elem_of_cons].
      * left. by right.
      * left. by left.
      * by right.
Qed.

Lemma model_well_typed σ (self : Structural) :
  wf σ self → well_typed (__class__ self) (deref σ (_value self)).
Proof.
  intros Hwf name o Hget.
  assert (is_Some (Dict.get name (TYPEMAP (__class__ self)))) as [sig ->].
  { apply get_Some_keys, (wf_schema_keys σ self name Hwf), get_Some_keys.
    by eexists. }
  by exists sig.
Qed.

(** The frame of the present fields binds each field name to the text of
    the field. *)
Lemma self_scope_lookup σ (self : Structural) name o :
  wf σ self →
  Dict.get name (deref σ (_value self)) = Some (Some o) →
  lookup (scope_chain self (deref σ (_value self))) name = Some (text o).
Proof.
  intros [_ _ Hnd] Hget.
  apply (get_present _ _ _ Hnd) in Hget.
  set (l := Dict.of_items (present (deref σ (_value self)))) in *.
  assert (Dict.get name (prod_map id text <$> l) = Some (text o)) as Hf.
  { clearbody l. induction l as [|[k v] l IH]; simpl in *; [done|].
    destruct (decide (name = k)); [by injection Hget as ->|by apply IH]. }
  change (match Dict.get name (prod_map id text <$> l) with
          | Some t => Some t
          | None => lookup (_scopes self) name
          end = Some (text o)).
  by rewrite Hf.
Qed.

Lemma keyword_error_Some (l : list string) e :
  keyword_error l = Some e → ∃ function argument, e = TypeError function argument.
Proof.
  unfold keyword_error. repeat case_decide; intros [= <-]; by eexists _, _.
Qed.

(** C1: in the model of placeholder resolution, resolving never runs out
    of fuel, whatever the chain binds.  The fields of a composite keyed by
    its schema are bindings of its chain, and a name that the resolution of
    a field meets again while resolving it is among the names that field
    leaves unbound.  [interpolate] ends: it returns when no field is
    called [self], [cls] or [value], and raises the [TypeError] of the
    keyword call otherwise.  When it returns, the names the fields revisit
    are among the unbound names returned: a path of distinct placeholders,
    each bound to a string that mentions the next, that starts in a field
    and leads back into itself ends in a name returned unbound. *)
Theorem cycles_terminate σ (self : Structural) :
  wf σ self →
  (∀ chain t, is_Some (resolve (enough chain) chain [] t))
  ∧ (∀ a oa b,
       Dict.get a (deref σ (_value self)) = Some (Some oa) →
       b ∈ vars (text oa) →
       depends (scope_chain self (deref σ (_value self))) a b)
  ∧ (∀ name o n r,
       Dict.get name (deref σ (_value self)) = Some (Some o) →
       n ∈ vars (text o) →
       revisits (frames o ++ scope_chain self (deref σ (_value self))) [] n r →
       r ∈ (String_interpolate
              (in_scope o (scope_chain self (deref σ (_value self))))).2)
  ∧ ∃ res σ',
      interpolate self σ = (res, σ')
      ∧ (¬ bindable (Dict.keys (TYPEMAP (__class__ self))) →
         ∃ function argument, res = Raise (TypeError function argument))
      ∧ (bindable (Dict.keys (TYPEMAP (__class__ self))) →
         ∃ new_self unbound,
           res = Return (new_self, unbound)
           ∧ (∀ name o n r,
                Dict.get name (deref σ (_value self)) = Some (Some o) →
                n ∈ vars (text o) →
                revisits (frames o ++ scope_chain self (deref σ (_value self)))
                  [] n r →
                r ∈ unbound)
           ∧ ∀ name o p ps r,
               Dict.get name (deref σ (_value self)) = Some (Some o) →
               p ∈ vars (text o) →
               NoDup (p :: ps) →
               chained (frames o ++ scope_chain self (deref σ (_value self))) p ps →
               depends (frames o ++ scope_chain self (deref σ (_value self)))
                 (from_option id p (last (p :: ps))) r →
               r ∈ p :: ps →
               r ∈ unbound).
Proof.
  intros Hwf.
  assert (∀ name o n r,
            Dict.get name (deref σ (_value self)) = Some (Some o) →
            n ∈ vars (text o) →
            revisits (frames o ++ scope_chain self (deref σ (_value self))) [] n r →
            r ∈ (String_interpolate
                   (in_scope o (scope_chain self (deref σ (_value self))))).2)
    as Hfield.
  { intros name o n r Hget Hn Hrev.
    set (chain := frames o ++ scope_chain self (deref σ (_value self))) in *.
    change (r ∈ (String_interpolate (MkString (text o) chain)).2).
    unfold String_interpolate. cbn [text frames].
    destruct (resolve_enough chain (text o)) as [[t ub] Hres].
    rewrite Hres. simpl. by eapply revisited_unbound. }
  split_and!.
  - apply resolve_enough.
  - intros a oa b Hget Hb. exists (text oa). split; [|done].
    by apply self_scope_lookup.
  - done.
  - destruct (interpolate_outcome σ self (wf_NoDup _ _ Hwf))
      as (σ' & _ & _ & Hrun).
    rewrite (interpolated_eq σ self Hwf (model_well_typed σ self Hwf)) in Hrun.
    destruct (keyword_error (Dict.keys (TYPEMAP (__class__ self)))) as [e|] eqn:E.
    + exists (Raise e), σ'. split_and!; [done| |].
      * intros _. apply keyword_error_Some in E as (f & a & ->). by eexists _, _.
      * intros Hb%keyword_error_None. congruence.
    + destruct Hrun as [Hrun _]. eexists _, σ'. split_and!; [done| |].
      * intros Hb. by apply keyword_error_None in E.
      * intros _. eexists _, _. split; [done|].
        assert (∀ name o n r,
                  Dict.get name (deref σ (_value self)) = Some (Some o) →
                  n ∈ vars (text o) →
                  revisits (frames o ++ scope_chain self (deref σ (_value self)))
                    [] n r →
                  r ∈ elements (list_to_set (C:=gset string)
                                  (deref σ (_value self) ≫= λ kv,
                                     unbound_of
                                       (scope_chain self (deref σ (_value self)))
                                       kv.2))) as Hrev.
        2:{ split; [done|]. intros name o p ps r Hget Hp Hnd Hch Hdep Hr.
            apply (Hrev name o p r Hget Hp).
            apply (path_revisits _ [] p ps r Hnd);
              [by intros ? _ ?%elem_of_nil|done..|].
            by right. }
        intros name o n r Hget Hn Hrev.
        apply elem_of_elements, elem_of_list_to_set, list_elem_of_bind.
        exists (name, Some o). split.
        2:{ apply get_elem_of; [apply (wf_NoDup _ _ Hwf)|done]. }
        by apply (Hfield name o n r).
Qed.

(** ** Concrete composites *)

Lemma wf_concrete (σ : list (list (string * option (@Obj model)))) (self : Structural) :
  bool_decide (_value self < length σ) = true →
  bool_decide (list_to_set (C:=gset string) (Dict.keys (deref σ (_value self)))
               = list_to_set (Dict.keys (TYPEMAP (__class__ self)))) = true →
  bool_decide (NoDup (Dict.keys (deref σ (_value self)))) = true →
  wf σ self.
Proof.
  intros H1%bool_decide_eq_true H2%bool_decide_eq_true H3%bool_decide_eq_true.
  by split.
Qed.

Lemma wf_loop : wf loop_store loop.
Proof. by apply wf_concrete. Qed.

Lemma wf_pair_ref : wf pairs_store pair_ref.
Proof. by apply wf_concrete. Qed.

Lemma wf_pair_lit : wf pairs_store pair_lit.
Proof. by apply wf_concrete. Qed.

Lemma wf_nobody : wf nobody_store nobody.
Proof. by apply wf_concrete. Qed.


Lemma bindable_Pair : bindable (Dict.keys (TYPEMAP Pair)).
Proof. by apply (bool_decide_unpack _). Qed.

(** [Pair(a="{{b}}", b="{{a}}").interpolate()] returns, with both names
    unbound. *)
Example loop_interpolates :
  ∃ new_self σ',
    interpolate loop loop_store = (Return (new_self, ["a"; "b"]), σ').
Proof. by eexists _, _. Qed.

(** [Pair(a="{{b}}", b="x").interpolate()] resolves [a] to [x]. *)
Example pair_interpolates :
  (interpolate pair_ref pairs_store).1
  = Return (MkStructural Pair 2 [], [])
  ∧ Dict.get "a" (deref (interpolate pair_ref pairs_store).2 2)
    = Some (Some (MkString [Lit "x"] [[("a", [Var "b"]); ("b", [Lit "x"])]])).
Proof. done. Qed.

Lemma cycles_terminate_witness :
  ∃ new_self unbound σ',
    interpolate loop loop_store = (Return (new_self, unbound), σ')
    ∧ "a" ∈ unbound ∧ "b" ∈ unbound.
Proof.
  destruct (cycles_terminate loop_store loop wf_loop)
    as (_ & Hdep & _ & res & σ' & Hrun & _ & Hret).
  destruct (Hret bindable_Pair) as (new_self & unbound & -> & Hrev & _).
  exists new_self, unbound, σ'. split; [done|].
  assert (depends (scope_chain loop (deref loop_store (_value loop))) "a" "b") as Hab.
  { eapply Hdep; [done|]. by left. }
  assert (depends (scope_chain loop (deref loop_store (_value loop))) "b" "a") as Hba.
  { eapply Hdep; [done|]. by left. }
  split.
  - apply (Hrev "b" (MkString [Var "a"] []) "a" "a"); [done|by left|].
    eapply revisits_later; [by intros ?%elem_of_nil|exact Hab|].
    eapply revisits_later; [|exact Hba|].
    + by intros ?%list_elem_of_singleton.
    + apply revisits_now. by right; left.
  - apply (Hrev "a" (MkString [Var "b"] []) "b" "b"); [done|by left|].
    eapply revisits_later; [by intros ?%elem_of_nil|exact Hba|].
    eapply revisits_later; [|exact Hab|].
    + by intros ?%list_elem_of_singleton.
    + apply revisits_now. by right; left.
Defined.



(** [Pair(a="x")] is keyed by [a] and [b], and [b] is [Empty]. *)
Lemma schema_closure_witness :
  wf [[("a", Some (MkString [Lit "x"] [])); ("b", None)]] (MkStructural Pair 0 [])
  ∧ Dict.get "b" [("a", Some (MkString [Lit "x"] [])); ("b", None)] = Some None.
Proof.
  assert (Structural_new Pair [] a_is_x []
          = (Return (MkStructural Pair 0 []),
             [[("a", Some (MkString [Lit "x"] [])); ("b", None)]])) as Hnew by done.
  destruct (schema_closure _ _ (produced_new _ _ _ _ _ _ Hnew)) as [Hwf Habsent].
  split; [done|].
  apply (Habsent Pair [] a_is_x [] Hnew "b").
  - unfold field_names. simpl. set_solver.
  - unfold supplied. simpl. by intros ?%list_elem_of_singleton.
  - intros sig Hin. simpl in Hin.
    apply elem_of_cons in Hin as [Hin|Hin]; [by simplify_eq|].
    apply list_elem_of_singleton in Hin. by simplify_eq.
Defined.

(** [Person().check()] fails on [first], the first entry of the schema. *)
Lemma check_first_failure_witness :
  (check nobody nobody_store).1 = Return (failure "Person[first] is required.")
  ∧ ∃ tc, check nobody nobody_store = (Return tc, nobody_store) ∧ ok tc = false.
Proof.
  split; [done|].
  destruct (check_first_failure nobody_store nobody wf_nobody)
    as (tc & Hrun & _ & _ & Hmiss & _).
  exists tc. split; [done|]. apply Hmiss. by left.
Defined.

(** C4 as stated fails on [Person()], whose two required fields are both
    [Empty]: the failure names [first] and not [last], and [check] does not
    succeed although no field that is not [Empty] fails its own check. *)
Lemma check_counterexample :
  Structural_new Person [] [] [] = (Return nobody, nobody_store)
  ∧ (check nobody nobody_store).1 = Return (failure "Person[first] is required.")
  ∧ required_missing (deref nobody_store (_value nobody))
      ("last", MkTypeSignature StringType true None)
  ∧ ¬ names "Person[first] is required." "last"
  ∧ present_checks_succeed nobody_store nobody
  ∧ ¬ ((check nobody nobody_store).1 = Return success
       ↔ present_checks_succeed nobody_store nobody).
Proof.
  assert (present_checks_succeed nobody_store nobody) as Hpres by done.
  split_and!; [done|done|done| |done|].
  - by intros H%names_occurs.
  - intros [_ H]. by specialize (H Hpres).
Qed.



(** [Pair(a="{{b}}", b="x").find(a)] *)
Lemma find_cases_witness :
  find pair_ref (MkRef (Dereference "a") []) pairs_store
  = (Return (in_scope (MkString [Var "b"] [])
               (scope_chain pair_ref (deref pairs_store (_value pair_ref)))),
     pairs_store)
  ∧ find pair_ref (MkRef (Dereference "c") []) pairs_store
    = (Raise NotFound, pairs_store)
  ∧ find pair_ref (MkRef (Index "a") []) pairs_store
    = (Raise NamingError, pairs_store)
  ∧ find pair_ref (MkRef (Dereference "a") [Dereference "x"]) pairs_store
    = (Raise Unnamable, pairs_store).
Proof.
  split_and!.
  - destruct (find_cases pairs_store pair_ref (MkRef (Dereference "a") []) wf_pair_ref)
      as (_ & _ & _ & Hfound & _).
    by apply (Hfound "a" (MkString [Var "b"] [])).
  - destruct (find_cases pairs_store pair_ref (MkRef (Dereference "c") []) wf_pair_ref)
      as (_ & Hunknown & _).
    apply (Hunknown "c"); [done|]. simpl. set_solver.
  - destruct (find_cases pairs_store pair_ref (MkRef (Index "a") []) wf_pair_ref)
      as (Hindex & _).
    by apply (Hindex "a").
  - destruct (find_cases pairs_store pair_ref
                (MkRef (Dereference "a") [Dereference "x"]) wf_pair_ref)
      as (_ & _ & _ & Hfound & _).
    destruct (Hfound "a" (MkString [Var "b"] []) eq_refl eq_refl) as [_ Hrest].
    destruct (Hrest (Dereference "x") [] eq_refl) as [Hunnamable _].
    by apply Hunnamable.
Defined.

Lemma String_round_trips (k : klazz) : round_trips registry k.
Proof.
  exists StringType. split_and!; [done|done|].
  intros d _. exists (MkString (text d) []). split; [done|].
  by apply bool_decide_eq_true_2.
Qed.

(** [Default(String, "x")] and the schema of [Pair] come back from their
    serialized forms. *)
Lemma signature_round_trip_witness :
  (∃ sig', deserialize (serialize default_x) registry = Return sig'
     ∧ TypeSignature_eq default_x sig' = true)
  ∧ ∃ cls, StructFactory_create registry "Pair" (attributes_to_parameters (TYPEMAP Pair))
           = Return cls
      ∧ dict_eq TypeSignature_eq (TYPEMAP Pair) (TYPEMAP cls) = true.
Proof.
  destruct (signature_round_trip registry default_x "Pair" (TYPEMAP Pair)
              (String_round_trips _)) as [(sig' & Hs & Heq & _) Hschema].
  { by intros d [= <-]. }
  split; [by exists sig'|].
  destruct Hschema as (cls & Hcls & _ & _ & Hsame).
  - by apply (bool_decide_unpack _).
  - repeat constructor; try apply String_round_trips; by intros ? [=].
  - by exists cls.
Defined.



(** [Pair(c="x")] raises the unknown-field error and [Pair("x")] the
    expected-dictionary error; neither changes a dictionary of the store. *)
Example construction_raises :
  apply Pair [] c_is_x loop_store
  = (Raise (AttributeError "Unknown schema attribute c"),
     loop_store ++ [[("a", None); ("b", None)]])
  ∧ apply Pair [just_x] [] loop_store
    = (Raise (ValueError "Expected dictionary argument, got x"),
       loop_store ++ [[("a", None); ("b", None)]]).
Proof. done. Qed.





(** A document with a key the schema lacks loads without [strict] and
    raises with it. *)
Example json_loads_extra_key :
  (json_loads Pair extra_key false []).1
  = Return (MkStructural Pair 0 [])
  ∧ (json_loads Pair extra_key true []).1
    = Raise (AttributeError "Unknown schema attribute z").
Proof. done. Qed.

End MustacheFacts.

(** * Further properties *)

(** ** Signatures and schemas *)

Section signature_facts.
Context {OM : ObjectModel}.

(** X1: [TypeSignature.__init__] keeps [Empty] and a default that is an
    instance of the class as they are.  Any other default, plain data or
    an object of another class, is handed to the class once: the default
    stored is the object [cls(default)] when the class returns one, and
    the exception of the class is raised when it raises.  The signature
    returned has the class and the flag given, has no default exactly when
    none was given, and its default is an instance of the class. *)
Theorem init_default `{!ObjectLaws} (cls : Klazz) (req : bool) (dflt : pyvalue) :
  (dflt = Empty →
   TypeSignature_init cls req dflt = Return (MkTypeSignature cls req None))
  ∧ (∀ o, dflt = PyObj o → isinstance o cls = true →
       TypeSignature_init cls req dflt = Return (MkTypeSignature cls req (Some o)))
  ∧ (∀ v, unEmpty dflt = Some v →
       (∀ o, v = inr o → isinstance o cls = false) →
       TypeSignature_init cls req dflt
       = match new cls v with
         | Return d => Return (MkTypeSignature cls req (Some d))
         | Raise e => Raise e
         end)
  ∧ (∀ sig, TypeSignature_init cls req dflt = Return sig →
       klazz sig = cls ∧ required sig = req ∧ signature_ok sig
       ∧ (empty sig = true ↔ dflt = Empty))
  ∧ (∀ e, TypeSignature_init cls req dflt = Raise e →
       ∃ v, unEmpty dflt = Some v ∧ new cls v = Raise e).
Proof.
  split_and!.
  - by intros ->.
  - intros o -> Hi. unfold TypeSignature_init. simpl. by rewrite Hi.
  - intros v Hv Hno. unfold TypeSignature_init, instance_or_new. rewrite Hv.
    destruct v as [r|o]; [done|]. by rewrite (Hno o eq_refl).
  - intros sig Hinit. split_and!.
    + unfold TypeSignature_init in Hinit.
      destruct (unEmpty dflt); [destruct (instance_or_new cls _)|];
        by simplify_eq.
    + unfold TypeSignature_init in Hinit.
      destruct (unEmpty dflt); [destruct (instance_or_new cls _)|];
        by simplify_eq.
    + by eapply init_ok.
    + unfold TypeSignature_init in Hinit.
      destruct dflt as [|o|r]; cbn [unEmpty] in Hinit.
      * by injection Hinit as <-.
      * destruct (instance_or_new cls (inr o)); simplify_eq. by split.
      * destruct (instance_or_new cls (inl r)); simplify_eq. by split.
  - intros e. unfold TypeSignature_init.
    destruct (unEmpty dflt) as [v|]; [|done].
    intros Hraise. exists v. split; [done|].
    unfold instance_or_new in Hraise. destruct v as [r|o].
    + by destruct (new cls (inl r)); simplify_eq.
    + destruct (isinstance o cls); [done|].
      by destruct (new cls (inr o)); simplify_eq.
Qed.

(** X2: [deserialize] asks the registry for the class and raises what the
    registry raises.  The [empty] flag of the tuple decides: when it is set
    the default slot is not read and the signature has no default; when it
    is not, the class wraps the default slot, [deserialize] raises what the
    class raises, and the object built is the default as it is, without a
    second wrapping. *)
Theorem deserialize_outcome `{!ObjectLaws} (sig : SerializedSignature)
  (type_dict : TypeDict) :
  match TypeFactory_new type_dict (s_klazz sig) with
  | Raise e => deserialize sig type_dict = Raise e
  | Return real_class =>
      if s_empty sig
      then deserialize sig type_dict
           = Return (MkTypeSignature real_class (s_required sig) None)
      else match new real_class (inl (s_default sig)) with
           | Raise e => deserialize sig type_dict = Raise e
           | Return d =>
               deserialize sig type_dict
               = Return (MkTypeSignature real_class (s_required sig) (Some d))
           end
  end.
Proof.
  unfold deserialize. destruct (TypeFactory_new type_dict (s_klazz sig)) as [k|e];
    [|done].
  destruct (s_empty sig); simpl; [done|].
  destruct (new k (inl (s_default sig))) as [d|e] eqn:E; [|done].
  unfold TypeSignature_init. simpl. by rewrite (new_isinstance _ _ _ E).
Qed.

Lemma TypeSignature_eq_true (a b : TypeSignature) :
  TypeSignature_eq a b = true
  ↔ serialize_type (klazz a) = serialize_type (klazz b)
    ∧ required a = required b
    ∧ default_eq (default a) (default b) = true
    ∧ empty a = empty b.
Proof.
  unfold TypeSignature_eq. rewrite !andb_true_iff, !bool_decide_eq_true.
  naive_solver.
Qed.

(** X3: [TypeSignature.__eq__] compares the type descriptors, not the
    classes, and is as good an equivalence as the equality of the defaults:
    reflexive, symmetric and transitive when that one is.  [__ne__] holds
    exactly when [__eq__] does not. *)
Theorem TypeSignature_eq_equivalence :
  ((∀ o, obj_eq o o = true) → ∀ a, TypeSignature_eq a a = true)
  ∧ ((∀ x y, obj_eq x y = true → obj_eq y x = true) →
     ∀ a b, TypeSignature_eq a b = true → TypeSignature_eq b a = true)
  ∧ ((∀ x y z, obj_eq x y = true → obj_eq y z = true → obj_eq x z = true) →
     ∀ a b c, TypeSignature_eq a b = true → TypeSignature_eq b c = true →
              TypeSignature_eq a c = true)
  ∧ (∀ a b, TypeSignature_ne a b = true ↔ TypeSignature_eq a b = false)
  ∧ (∀ k k' req d, serialize_type k = serialize_type k' →
       obj_eq d d = true →
       TypeSignature_eq (MkTypeSignature k req (Some d))
         (MkTypeSignature k' req (Some d)) = true).
Proof.
  split_and!.
  - intros Hrefl a. apply TypeSignature_eq_true. split_and!; [done|done| |done].
    destruct (default a); simpl; [apply Hrefl|done].
  - intros Hsym a b (H1 & H2 & H3 & H4)%TypeSignature_eq_true.
    apply TypeSignature_eq_true. split_and!; [done|done| |done].
    destruct (default a), (default b); simpl in *; try done. by apply Hsym.
  - intros Htrans a b c (H1 & H2 & H3 & H4)%TypeSignature_eq_true
      (H1' & H2' & H3' & H4')%TypeSignature_eq_true.
    apply TypeSignature_eq_true. split_and!; [congruence|congruence| |congruence].
    destruct (default a), (default b), (default c); simpl in *; try done.
    by eapply Htrans.
  - intros a b. unfold TypeSignature_ne. by rewrite negb_true_iff.
  - intros k k' req d Hk Hd. by apply TypeSignature_eq_true.
Qed.

End signature_facts.

Section schema_facts.
Context {OM : ObjectModel}.

Lemma deserialize_ok `{!ObjectLaws} (param : SerializedSignature) type_dict sig :
  deserialize param type_dict = Return sig → signature_ok sig.
Proof.
  unfold deserialize. destruct (TypeFactory_new type_dict (s_klazz param)); [|done].
  destruct (s_empty param); simpl.
  - by apply init_ok.
  - destruct (new _ _); [by apply init_ok|done].
Qed.

Lemma deserialize_all_Return type_dict parameters typemap :
  deserialize_all type_dict parameters = Return typemap →
  typemap.*1 = parameters.*1
  ∧ Forall2 (λ p s, p.1 = s.1 ∧ deserialize p.2 type_dict = Return s.2)
      parameters typemap.
Proof.
  revert typemap. induction parameters as [|[attr param] ps IH]; intros tm; simpl.
  - by intros [= <-].
  - destruct (deserialize param type_dict) as [sig|] eqn:E; [|done].
    destruct (deserialize_all type_dict ps) as [tm'|]; [|done].
    intros [= <-]. destruct (IH tm' eq_refl) as [Hk Hf].
    split; [by simpl; f_equal|by constructor].
Qed.

Lemma deserialize_all_Raise type_dict parameters :
  is_Raise (deserialize_all type_dict parameters)
  ↔ Exists (λ p, is_Raise (deserialize p.2 type_dict)) parameters.
Proof.
  induction parameters as [|[attr param] ps IH]; simpl.
  - split; [by intros [? ?]|by intros ?%Exists_nil].
  - rewrite Exists_cons. simpl.
    destruct (deserialize param type_dict) as [sig|e].
    + destruct (deserialize_all type_dict ps) as [tm'|e].
      * split; [by intros [? ?]|].
        intros [[? ?]|H]; [done|]. apply IH in H as [? ?]. done.
      * split; [|by eexists]. intros _. right. apply IH. by eexists.
    + split; [|by eexists]. intros _. left. by eexists.
Qed.

(** X5: the schema extraction keeps, in the order of the class body, the
    attributes that are a subclass of [Object] or a [TypeSignature], each
    with its serialized signature, and no other: a bare class declares an
    optional field without default, a signature declares itself, and
    anything else declares nothing. *)
Theorem declared_fields (attributes : list (string * attribute)) :
  (StructMetaclass_attributes_to_parameters attributes).*1
  = (filter (λ kv, is_Some (wrap kv.2)) attributes).*1
  ∧ (∀ name param,
       (name, param) ∈ StructMetaclass_attributes_to_parameters attributes
       ↔ (∃ cls, (name, AClass cls) ∈ attributes
                 ∧ param = serialize (MkTypeSignature cls false None))
         ∨ (∃ sig, (name, ASignature sig) ∈ attributes ∧ param = serialize sig))
  ∧ (∀ typemap : list (string * TypeSignature),
       StructMetaclass_attributes_to_parameters (prod_map id ASignature <$> typemap)
       = attributes_to_parameters typemap).
Proof.
  unfold StructMetaclass_attributes_to_parameters. split_and!.
  - induction attributes as [|[name [k|sig|]] attrs IH]; [done|..].
    + rewrite filter_cons_True by (simpl; by eexists). simpl. by f_equal.
    + rewrite filter_cons_True by (simpl; by eexists). simpl. by f_equal.
    + rewrite filter_cons_False by (simpl; by intros [? ?]). done.
  - intros name param. rewrite list_elem_of_omap. split.
    + intros ([n [k|sig|]] & Hin & Heq); simplify_eq/=.
      * left. by exists k.
      * right. by exists sig.
    + intros [(k & Hin & ->)|(sig & Hin & ->)].
      * by exists (name, AClass k).
      * by exists (name, ASignature sig).
  - intros typemap. unfold attributes_to_parameters.
    induction typemap as [|[name sig] tm IH]; simpl; [done|]. by f_equal.
Qed.

Lemma get_of_items_reverse {V} (l : list (string * V)) k :
  Dict.get k (Dict.of_items l) = Dict.get k (reverse l).
Proof.
  induction l as [|[k' v'] l IH] using rev_ind; [done|].
  rewrite get_of_items_snoc, reverse_snoc. simpl.
  destruct (decide (k' = k)) as [->|Hne].
  - by rewrite decide_True.
  - by rewrite decide_False.
Qed.

Lemma get_deserialized type_dict
  (parameters : list (string * SerializedSignature))
  (typemap : list (string * TypeSignature)) attr :
  Forall2 (λ p s, p.1 = s.1 ∧ deserialize p.2 type_dict = Return s.2)
    parameters typemap →
  match Dict.get attr parameters with
  | Some param =>
      ∃ sig, deserialize param type_dict = Return sig
             ∧ Dict.get attr typemap = Some sig
  | None => Dict.get attr typemap = None
  end.
Proof.
  induction 1 as [|[a param] [a' sig] ps tm [Ha Hd] Hf IH]; simpl in *; [done|].
  subst a'. destruct (decide (attr = a)); [by exists sig|done].
Qed.

(** X6: when [StructFactory.create] returns, the class has the name
    given, its [TYPEMAP] has no repeated name, its names are those of the
    parameters, the signature of a name is the deserialization of the last
    parameter of that name, and every default is an instance of its class.
    It raises exactly when the deserialization of some parameter
    raises. *)
Theorem create_typemap `{!ObjectLaws} (type_dict : TypeDict) (name : string)
  (parameters : list (string * SerializedSignature)) :
  (∀ cls, StructFactory_create type_dict name parameters = Return cls →
     __name__ cls = name
     ∧ class_ok cls
     ∧ (∀ attr, attr ∈ Dict.keys (TYPEMAP cls) ↔ attr ∈ parameters.*1)
     ∧ (∀ attr sig, Dict.get attr (TYPEMAP cls) = Some sig →
          ∃ param, (attr, param) ∈ parameters
                   ∧ deserialize param type_dict = Return sig)
     ∧ (∀ attr,
          match Dict.get attr (reverse parameters) with
          | Some param =>
              ∃ sig, deserialize param type_dict = Return sig
                     ∧ Dict.get attr (TYPEMAP cls) = Some sig
          | None => Dict.get attr (TYPEMAP cls) = None
          end))
  ∧ (is_Raise (StructFactory_create type_dict name parameters)
     ↔ Exists (λ p, is_Raise (deserialize p.2 type_dict)) parameters).
Proof.
  unfold StructFactory_create. split.
  - intros cls Hcls.
    destruct (deserialize_all type_dict parameters) as [tm|] eqn:E; [|done].
    injection Hcls as <-. simpl.
    destruct (deserialize_all_Return _ _ _ E) as [Hk Hf].
    assert (∀ attr sig, Dict.get attr (Dict.of_items tm) = Some sig →
              ∃ param, (attr, param) ∈ parameters
                       ∧ deserialize param type_dict = Return sig) as Hget.
    { intros attr sig Hin%get_of_items_elem.
      apply list_elem_of_lookup in Hin as [i Hi].
      destruct (Forall2_lookup_r _ _ _ _ _ Hf Hi) as ([a param] & Hp & Ha & Hd).
      simpl in *. subst a. exists param. split; [|done].
      by eapply list_elem_of_lookup_2. }
    split_and!; [done| | |done|].
    + split; [apply keys_of_items_NoDup|].
      intros attr sig Hin. apply get_elem_of in Hin; [|apply keys_of_items_NoDup].
      destruct (Hget _ _ Hin) as (param & _ & Hd). by eapply deserialize_ok.
    + intros attr. by rewrite elem_of_keys_of_items, Hk.
    + intros attr. rewrite get_of_items_reverse.
      by apply get_deserialized, Forall2_reverse.
  - rewrite <-deserialize_all_Raise.
    destruct (deserialize_all type_dict parameters); split; intros [? ?];
      first [done|by eexists].
Qed.

End schema_facts.

Section canonical_schema.
Context {OM : ObjectModel}.

Global Instance by_name_trans : Transitive by_name.
Proof. intros a b c. unfold by_name. apply transitivity. Qed.

Global Instance by_name_total : Total by_name.
Proof. intros a b. unfold by_name. apply total, _. Qed.

Lemma same_name_same_entry {V} (l : list (string * V)) x y :
  NoDup l.*1 → x ∈ l → y ∈ l → x.1 = y.1 → x = y.
Proof.
  destruct x as [k v], y as [k' v']. simpl. intros Hnd Hx Hy <-.
  apply (get_elem_of l k v Hnd) in Hx. apply (get_elem_of l k v' Hnd) in Hy.
  congruence.
Qed.

Lemma serialized_names (typemap : list (string * TypeSignature)) :
  (prod_map id serialize <$> typemap).*1 = typemap.*1.
Proof.
  rewrite <-list_fmap_compose. apply list_fmap_ext. by intros ? [] ?.
Qed.

(** X7: [type_parameters] gives the name of the class and the serialized
    schema sorted by field name: the same entries as [TYPEMAP], each once,
    in ascending order of the names.  It does not depend on the iteration
    order of [TYPEMAP]: two classes of the same name whose schemas hold the
    same entries give the same parameters. *)
Theorem type_parameters_canonical (cls : StructClass) :
  (type_parameters cls).1 = __name__ cls
  ∧ (type_parameters cls).2 ≡ₚ prod_map id serialize <$> TYPEMAP cls
  ∧ StronglySorted (λ a b, String.le a.1 b.1) (type_parameters cls).2
  ∧ ∀ cls', __name__ cls' = __name__ cls →
            TYPEMAP cls' ≡ₚ TYPEMAP cls →
            NoDup (Dict.keys (TYPEMAP cls)) →
            type_parameters cls' = type_parameters cls.
Proof.
  unfold type_parameters. simpl. split_and!; [done|apply merge_sort_Permutation| |].
  - apply (StronglySorted_merge_sort by_name).
  - intros cls' -> Hperm Hnd. f_equal.
    apply (Sorted_unique_strong by_name).
    + intros x1 x2 Hx1 Hx2 H12 H21.
      rewrite merge_sort_Permutation in Hx1, Hx2.
      rewrite Hperm in Hx1.
      apply (same_name_same_entry (prod_map id serialize <$> TYPEMAP cls));
        [by rewrite serialized_names|done|done|].
      by apply (anti_symm String.le).
    + apply Sorted_merge_sort, _.
    + apply Sorted_merge_sort, _.
    + by rewrite !merge_sort_Permutation, Hperm.
Qed.

Lemma deserialize_all_round_trip `{!ObjectLaws} type_dict
  (l : list (string * TypeSignature)) :
  Forall (λ entry, round_trips type_dict (klazz entry.2) ∧ signature_ok entry.2) l →
  ∃ l', deserialize_all type_dict (prod_map id serialize <$> l) = Return l'
        ∧ l'.*1 = l.*1
        ∧ Forall2 (λ a b, TypeSignature_eq a.2 b.2 = true) l l'.
Proof.
  induction l as [|[attr s0] l IH]; intros Hall.
  - by exists [].
  - apply Forall_cons in Hall as [[Hrt0 Hok0] Hall].
    destruct (deserialize_serialize type_dict s0 Hrt0 Hok0) as (s' & Hs0 & Hs' & _).
    destruct (IH Hall) as (l' & Hl & Hk & Hf).
    exists ((attr, s') :: l'). split_and!.
    + rewrite fmap_cons.
      change (match deserialize (serialize s0) type_dict with
              | Raise e => Raise e
              | Return sig =>
                  match deserialize_all type_dict (prod_map id serialize <$> l) with
                  | Raise e => Raise e
                  | Return typemap => Return ((attr, sig) :: typemap)
                  end
              end = Return ((attr, s') :: l')).
      by rewrite Hs0, Hl.
    + rewrite !fmap_cons. by f_equal.
    + by constructor.
Qed.

(** X8: a class comes back from its own [type_parameters]: for a schema
    without repeated names whose wrapped types the registry carries and
    whose defaults are instances of them, [StructFactory.create] on the
    parameters returns a class of the same name, with the same field names,
    whose [TYPEMAP] compares equal to the original, whatever order the
    sorting has put the fields in. *)
Theorem type_parameters_round_trip `{!ObjectLaws} type_dict (cls : StructClass) :
  NoDup (Dict.keys (TYPEMAP cls)) →
  Forall (λ entry, round_trips type_dict (klazz entry.2) ∧ signature_ok entry.2)
    (TYPEMAP cls) →
  ∃ cls', StructFactory_create type_dict (type_parameters cls).1
            (type_parameters cls).2 = Return cls'
    ∧ __name__ cls' = __name__ cls
    ∧ Dict.keys (TYPEMAP cls') ≡ₚ Dict.keys (TYPEMAP cls)
    ∧ dict_eq TypeSignature_eq (TYPEMAP cls) (TYPEMAP cls') = true.
Proof.
  intros Hnd Hall. unfold type_parameters, StructFactory_create. simpl.
  pose proof (merge_sort_Permutation by_name
                (prod_map id serialize <$> TYPEMAP cls)) as Hsorted.
  assert (∃ l, merge_sort by_name (prod_map id serialize <$> TYPEMAP cls)
               = prod_map id serialize <$> l ∧ TYPEMAP cls ≡ₚ l)
    as (l & Hl & Hperm).
  { change (prod_map id serialize <$> TYPEMAP cls)
      with (map (prod_map id serialize) (TYPEMAP cls)) in Hsorted at 2.
    apply Permutation_map_inv in Hsorted as (l & Hl & Hperm). by exists l. }
  rewrite Hl.
  destruct (deserialize_all_round_trip type_dict l) as (l' & -> & Hk & Hf).
  { by rewrite <-Hperm. }
  assert (NoDup l.*1) as Hndl by (by rewrite <-Hperm).
  assert (NoDup l'.*1) as Hndl' by (by rewrite Hk).
  eexists. split; [done|]. simpl. rewrite of_items_NoDup by done.
  split_and!; [done| |].
  - unfold Dict.keys. by rewrite Hk, <-Hperm.
  - unfold dict_eq. apply andb_true_intro. split.
    + apply bool_decide_eq_true_2.
      by rewrite <-(Forall2_length _ _ _ Hf), (Permutation_length Hperm).
    + apply forallb_forall. intros [k s1] Hin%list_elem_of_In. simpl.
      rewrite Hperm in Hin. apply list_elem_of_lookup in Hin as [i Hi].
      destruct (Forall2_lookup_l _ _ _ _ _ Hf Hi) as ([k' s2] & Hi' & Hs).
      assert (k' = k) as ->.
      { assert (l'.*1 !! i = Some k') as H1 by (by rewrite list_lookup_fmap, Hi').
        assert (l.*1 !! i = Some k) as H2 by (by rewrite list_lookup_fmap, Hi).
        rewrite Hk in H1. congruence. }
      assert (Dict.get k l' = Some s2) as ->; [|done].
      apply get_elem_of; [done|]. by eapply list_elem_of_lookup_2.
Qed.

End canonical_schema.

(** ** Overrides *)

Section override_facts.
Context {OM : ObjectModel}.
Implicit Types (cls : StructClass) (σ : store) (d : list (string * option Obj)).

Lemma override_app cls d kw1 kw2 :
  override cls d (kw1 ++ kw2)
  = match override cls d kw1 with
    | Return d1 => override cls d1 kw2
    | Raise e => Raise e
    end.
Proof.
  revert d. induction kw1 as [|[attr val] kw1 IH]; intros d; simpl; [done|].
  by destruct (_process_schema_attribute cls attr val).
Qed.


Lemma bindable_app {A} (kw1 kw2 : list (string * A)) :
  bindable (kw1 ++ kw2).*1 ↔ bindable kw1.*1 ∧ bindable kw2.*1.
Proof. unfold bindable. by rewrite fmap_app, Forall_app. Qed.


Lemma override_args_mappings cls d args :
  Forall is_Mapping args →
  bindable (mappings args).*1 →
  override_args cls d args = override cls d (mappings args).
Proof.
  unfold mappings. intros Hall. revert d.
  induction Hall as [|[kw|v] args Harg Hall IH]; intros d; simpl; [done| |done].
  intros [Hkw Hargs]%bindable_app.
  rewrite override_app, update_bindable by done.
  destruct (override cls d kw); [by apply IH|done].
Qed.

Lemma new_wf cls args kw σ self σ' :
  Structural_new cls args kw σ = (Return self, σ') → wf σ' self.
Proof.
  intros (d & Hd & -> & ->)%new_Return.
  apply constructed_keys in Hd as [Hk Hn].
  split; simpl; rewrite ?deref_snoc; [|done..].
  rewrite length_app. simpl. lia.
Qed.


(** X11: when no override is called [self], [cls] or [value],
    constructing with override maps is constructing with none and then
    updating with the maps one after the other: the two raise the same
    exception, or return composites of the same class with the same
    mapping. *)
Theorem construction_is_update cls args kw σ s0 σ0 :
  Forall is_Mapping args →
  bindable (mappings args ++ kw).*1 →
  Structural_new cls [] [] σ = (Return s0, σ0) →
  match Structural_new cls args kw σ, __call__ s0 (mappings args ++ kw) σ0 with
  | (Return s, σ'), (Return s', σ'') =>
      __class__ s = __class__ s' ∧ deref σ' (_value s) = deref σ'' (_value s')
  | (Raise e, _), (Raise e', _) => e = e'
  | _, _ => False
  end.
Proof.
  intros Hmaps Hb (d0 & Hd0 & -> & ->)%new_Return.
  apply constructed_Return in Hd0 as (_ & d1 & [= <-] & [= <-]).
  pose proof Hb as [Hargs Hkw]%bindable_app.
  destruct (new_run cls args kw σ) as (σ1 & _ & _ & Hrun).
  destruct (call_run (MkStructural cls (length σ) []) (mappings args ++ kw)
              (σ ++ [defaults cls])) as (σ2 & _ & _ & Hrun').
  simpl in Hrun'. rewrite deref_snoc, called_bindable, override_app in Hrun' by done.
  assert (constructed cls args kw
          = match override cls (defaults cls) (mappings args) with
            | Return d1 => override cls d1 kw
            | Raise e => Raise e
            end) as Hcons.
  { unfold constructed, applied.
    rewrite !bound_None, (override_args_mappings _ _ _ Hmaps Hargs);
      [|by apply bindable_cls|by apply bindable_clash in Hkw as [? _]].
    destruct (override cls (defaults cls) (mappings args)); [|done].
    by apply update_bindable. }
  rewrite Hcons in Hrun.
  destruct (override cls (defaults cls) (mappings args)) as [d1|e].
  - destruct (override cls d1 kw) as [d2|e].
    + destruct Hrun as [-> ->], Hrun' as [-> ->]. simpl. by rewrite !deref_snoc.
    + by rewrite Hrun, Hrun'.
  - by rewrite Hrun, Hrun'.
Qed.

Lemma override_get cls kw d d' name :
  override cls d kw = Return d' →
  match Dict.get name (reverse kw) with
  | Some val =>
      ∃ v, _process_schema_attribute cls name val = Return v
           ∧ Dict.get name d' = Some v
  | None => Dict.get name d' = Dict.get name d
  end.
Proof.
  revert d'. induction kw as [|[attr val] kw IH] using rev_ind; intros d'.
  - by intros [= ->].
  - rewrite override_app, reverse_snoc.
    destruct (override cls d kw) as [d0|] eqn:E; [|done]. simpl.
    destruct (_process_schema_attribute cls attr val) as [v|] eqn:Ep; [|done].
    intros [= <-]. destruct (decide (name = attr)) as [->|Hne].
    + exists v. by rewrite get_set_eq.
    + rewrite get_set_ne by done. by apply IH.
Qed.

Lemma set_same {V} k (v : V) (l : list (string * V)) :
  Dict.get k l = Some v → Dict.set k v l = l.
Proof.
  induction l as [|[k' v'] l IH]; simpl; [done|].
  destruct (decide (k = k')) as [->|Hne]; [by intros [= ->]|].
  intros H. f_equal. by apply IH.
Qed.

(** X12: after a functional update a field the map names holds what
    [_process_schema_attribute] makes of the last value the map gives it,
    and every other field holds what it held.  So an override with [Empty]
    leaves the field [Empty], whatever default the schema has, and an
    override with the object the field already holds, an instance of its
    class, leaves the mapping as it was. *)
Theorem update_fields (self : Structural) kw σ new_self σ' :
  __call__ self kw σ = (Return new_self, σ') →
  (∀ name,
     match Dict.get name (reverse kw) with
     | Some val =>
         ∃ v, _process_schema_attribute (__class__ self) name val = Return v
              ∧ Dict.get name (deref σ' (_value new_self)) = Some v
     | None =>
         Dict.get name (deref σ' (_value new_self))
         = Dict.get name (deref σ (_value self))
     end)
  ∧ (∀ name, Dict.get name (reverse kw) = Some Empty →
       Dict.get name (deref σ' (_value new_self)) = Some None)
  ∧ (∀ name o sig, kw = [(name, PyObj o)] →
       Dict.get name (deref σ (_value self)) = Some (Some o) →
       Dict.get name (TYPEMAP (__class__ self)) = Some sig →
       isinstance o (klazz sig) = true →
       deref σ' (_value new_self) = deref σ (_value self)).
Proof.
  intros (d & Hd & -> & ->)%call_Return. simpl. rewrite deref_snoc.
  split_and!.
  - intros name. by apply override_get.
  - intros name Hlast. pose proof (override_get _ _ _ _ name Hd) as Hget.
    rewrite Hlast in Hget. destruct Hget as (v & Hp & ->).
    unfold _process_schema_attribute in Hp.
    destruct (Dict.get name (TYPEMAP (__class__ self))); by simplify_eq/=.
  - intros name o sig -> Hget Hsig Hinst. simpl in Hd.
    unfold _process_schema_attribute in Hd. rewrite Hsig in Hd. simpl in Hd.
    rewrite Hinst in Hd. injection Hd as <-. by apply set_same.
Qed.

End override_facts.

(** ** Defaults, required fields, raw data and documents *)

Section field_facts.
Context {OM : ObjectModel}.
Implicit Types (cls : StructClass) (σ : store) (d : list (string * option Obj)).

Lemma get_fmap {V W} (f : V → W) (l : list (string * V)) k :
  Dict.get k (prod_map id f <$> l) = f <$> Dict.get k l.
Proof.
  induction l as [|[k' v] l IH]; simpl; [done|].
  by destruct (decide (k = k')).
Qed.

Lemma get_reverse {V} (l : list (string * V)) k :
  NoDup (Dict.keys l) → Dict.get k (reverse l) = Dict.get k l.
Proof.
  intros Hnd.
  assert (NoDup (Dict.keys (reverse l))) as Hnd'.
  { unfold Dict.keys. by rewrite fmap_reverse, reverse_Permutation. }
  apply option_eq. intros v. rewrite !get_elem_of by done.
  apply elem_of_reverse.
Qed.

Lemma get_defaults cls name sig :
  NoDup (Dict.keys (TYPEMAP cls)) →
  Dict.get name (TYPEMAP cls) = Some sig →
  Dict.get name (defaults cls) = Some (default sig).
Proof.
  intros Hnd Hsig. unfold defaults. rewrite of_items_NoDup.
  - by rewrite get_fmap, Hsig.
  - rewrite <-list_fmap_compose.
    assert ((fst ∘ prod_map id default) <$> TYPEMAP cls = (TYPEMAP cls).*1) as ->;
      [|done].
    apply list_fmap_ext. by intros ? [] ?.
Qed.

(** X4: a field that no override map supplies holds the default of its
    signature after construction.  When the signature is [Required(k)] the
    field is [Empty] and [check] returns a failure; when it is
    [Default(k, default)] with a default given, the field holds an instance
    of [k]. *)
Theorem unsupplied_field `{!ObjectLaws} cls args kw σ (self : Structural) σ'
  name sig :
  NoDup (Dict.keys (TYPEMAP cls)) →
  Structural_new cls args kw σ = (Return self, σ') →
  Dict.get name (TYPEMAP cls) = Some sig →
  name ∉ supplied args kw →
  Dict.get name (deref σ' (_value self)) = Some (default sig)
  ∧ (∀ k, Required k = Return sig →
       Dict.get name (deref σ' (_value self)) = Some None
       ∧ ∃ msg, check self σ' = (Return (failure msg), σ'))
  ∧ (∀ k dflt, Default k dflt = Return sig → dflt ≠ Empty →
       ∃ o, Dict.get name (deref σ' (_value self)) = Some (Some o)
            ∧ isinstance o k = true).
Proof.
  intros Hnd Hnew Hsig Hsup.
  pose proof (new_wf _ _ _ _ _ _ Hnew) as Hwf.
  pose proof Hnew as (d & Hd & -> & ->)%new_Return. simpl in *.
  rewrite deref_snoc.
  assert (Dict.get name d = Some (default sig)) as Hget.
  { rewrite (constructed_other _ _ _ _ _ Hd Hsup). by apply get_defaults. }
  split_and!; [done| |].
  - intros k [= <-]. simpl in Hget. split; [done|].
    destruct (check_loop_run (MkStructural cls (length σ) []) (σ ++ [d]) (TYPEMAP cls))
      as (tc & Hrun & Hok & _).
    { intros entry Hin. apply (wf_schema_keys _ _ _ Hwf). simpl.
      apply list_elem_of_fmap. by exists entry. }
    destruct tc as [|msg]; [|by exists msg].
    destruct Hok as [Hall _]. specialize (Hall eq_refl).
    rewrite Forall_forall in Hall.
    destruct (Hall (name, MkTypeSignature k true None)) as [Hmiss _].
    { apply get_elem_of; done. }
    destruct Hmiss. split; [done|]. simpl. by rewrite deref_snoc.
  - intros k dflt Hdef Hne.
    unfold Default, TypeSignature_init in Hdef.
    destruct (unEmpty dflt) as [v|] eqn:Ev; [|by destruct dflt].
    destruct (instance_or_new k v) as [o|] eqn:E; [|done].
    injection Hdef as <-. simpl in *. exists o. split; [done|].
    unfold instance_or_new in E. destruct v as [r|o0].
    + by eapply new_isinstance.
    + destruct (isinstance o0 k) eqn:Ei; [by injection E as ->|].
      by eapply new_isinstance.
Qed.

(** X9: [unapply] keeps the fields that are not [Empty], in their order,
    each as the raw form of its value.  Constructing from the result wraps
    each of these raw forms with the class of the field again, and gives
    every field that was [Empty] the default of the schema. *)
Theorem unapply_fields d :
  NoDup (Dict.keys d) →
  (∀ name,
     Dict.get name (unapply d)
     = match Dict.get name d with
       | Some (Some o) => Some (get o)
       | _ => None
       end)
  ∧ Dict.keys (unapply d) = Dict.keys (present d)
  ∧ ∀ cls d',
      constructed cls [] (prod_map id PyRaw <$> unapply d) = Return d' →
      ∀ name,
        match Dict.get name d with
        | Some (Some o) =>
            ∃ sig o', Dict.get name (TYPEMAP cls) = Some sig
                      ∧ new (klazz sig) (inl (get o)) = Return o'
                      ∧ Dict.get name d' = Some (Some o')
        | _ => Dict.get name d' = Dict.get name (defaults cls)
        end.
Proof.
  intros Hnd.
  assert (∀ name,
            Dict.get name (unapply d)
            = match Dict.get name d with
              | Some (Some o) => Some (get o)
              | _ => None
              end) as Hget.
  { intros name. unfold unapply, Dict.keys in *.
    induction d as [|[k [o|]] d IH]; simpl in *; [done|..].
    - apply NoDup_cons in Hnd as [Hk Hd].
      destruct (decide (name = k)); [done|by apply IH].
    - apply NoDup_cons in Hnd as [Hk Hd].
      destruct (decide (name = k)) as [->|Hne]; [|by apply IH].
      etrans; [by apply IH|]. apply get_None_keys in Hk. by rewrite Hk. }
  assert (Dict.keys (unapply d) = Dict.keys (present d)) as Hkeys.
  { unfold unapply, present, Dict.keys. clear.
    induction d as [|[k [o|]] d IH]; simpl; [done| |done]. by f_equal. }
  split_and!; [done|done|].
  intros cls d' (_ & d1 & [= <-] & Hcons)%constructed_Return name.
  pose proof (override_get _ _ _ _ name Hcons) as Hlast.
  rewrite get_reverse, get_fmap, Hget in Hlast.
  2:{ unfold Dict.keys. rewrite <-list_fmap_compose.
      assert ((fst ∘ prod_map id PyRaw) <$> unapply d = (unapply d).*1) as ->.
      { apply list_fmap_ext. by intros ? [] ?. }
      fold (Dict.keys (unapply d)). rewrite Hkeys. by apply present_NoDup. }
  destruct (Dict.get name d) as [[o|]|]; simpl in Hlast; [|done..].
  destruct Hlast as (v & Hp & Hv). unfold _process_schema_attribute in Hp.
  destruct (Dict.get name (TYPEMAP cls)) as [sig|]; [|done]. simpl in Hp.
  destruct (new (klazz sig) (inl (get o))) as [o'|] eqn:E; [|done].
  injection Hp as <-. by exists sig, o'.
Qed.

Lemma filter_all {A} (P : A → Prop) `{!∀ x, Decision (P x)} (l : list A) :
  Forall P l → filter P l = l.
Proof.
  induction 1 as [|x l Hx Hl IH]; [done|].
  rewrite filter_cons_True by done. by f_equal.
Qed.

(** X17: on a document whose keys are all field names, loading with and
    without [strict] is the same, since filtering against the schema leaves
    such a document as it is; and filtering a document twice is filtering
    it once. *)
Theorem strict_agrees cls (values : list (string * Raw)) σ :
  NoDup (Dict.keys values) →
  ((∀ k, k ∈ Dict.keys values → k ∈ Dict.keys (TYPEMAP cls)) →
   _filter_against_schema cls values = values
   ∧ json_loads cls (JsonObject values) false σ
     = json_loads cls (JsonObject values) true σ
   ∧ json_load cls (JsonObject values) false σ
     = json_load cls (JsonObject values) true σ)
  ∧ _filter_against_schema cls (_filter_against_schema cls values)
    = _filter_against_schema cls values.
Proof.
  intros Hnd.
  assert (∀ l : list (string * Raw), NoDup (Dict.keys l) →
            (∀ k, k ∈ Dict.keys l → k ∈ Dict.keys (TYPEMAP cls)) →
            _filter_against_schema cls l = l) as Hid.
  { intros l Hl Hin. unfold _filter_against_schema.
    rewrite filter_all.
    - by apply of_items_NoDup.
    - apply Forall_forall. intros [k r] Hkr. simpl.
      apply Is_true_true, mem_keys, Hin. unfold Dict.keys.
      apply list_elem_of_fmap. by exists (k, r). }
  split.
  - intros Hin. pose proof (Hid values Hnd Hin) as Heq.
    split_and!; [done|..]; unfold json_load, json_loads; by rewrite Heq.
  - apply Hid.
    + apply keys_of_items_NoDup.
    + intros k Hk. by apply filter_keys in Hk as [_ ?].
Qed.

End field_facts.

(** ** Reading fields *)

Section reading_facts.
Context {OM : ObjectModel}.
Implicit Types (cls : StructClass) (σ : store) (d : list (string * option Obj)).


Lemma check_loop_store (self : Structural) tm σ : (check_loop self tm σ).2 = σ.
Proof.
  induction tm as [|[name sig] tm IH]; simpl; [done|].
  unfold mbind, M_bind, bind, getitem.
  destruct (Dict.get name (deref σ (_value self))) as [[o|]|]; simpl; [| |done].
  - destruct (ok _); [apply IH|done].
  - destruct (required sig); [done|apply IH].
Qed.

(** X18: the operations that read a composite change no dictionary,
    whether they return or raise, and whether or not the composite is keyed
    by its schema: [scopes], [check], [find] and [interpolate_key] leave the
    store as it is.  [interpolate] and the comparison [==] only add
    dictionaries to it. *)
Theorem readers_keep_store (self : Structural) σ :
  (scopes self σ).2 = σ
  ∧ (check self σ).2 = σ
  ∧ (∀ ref, (find self ref σ).2 = σ)
  ∧ (∀ attribute, (interpolate_key self attribute σ).2 = σ)
  ∧ extends σ (interpolate self σ).2
  ∧ ∀ other, extends σ (__eq__ self other σ).2.
Proof.
  assert (∀ (s : Structural) σ0, extends σ0 (interpolate s σ0).2) as Hint.
  { intros s σ0. unfold interpolate, mbind, M_bind, bind. rewrite scopes_run.
    unfold items at 1. cbv beta iota.
    destruct (foldl _ _ _) as [data ub].
    destruct (new_run (__class__ s) [] data σ0) as (σ1 & Hext & _ & Hrun).
    destruct (constructed (__class__ s) [] data);
      [destruct Hrun as [Hrun _]|]; by rewrite Hrun. }
  split_and!.
  - done.
  - apply check_loop_store.
  - intros ref. unfold find, mbind, M_bind, bind, getitem.
    destruct (is_dereference ref); [|done]. simpl.
    destruct (Dict.mem _ _); [|done]. simpl.
    destruct (Dict.get _ _) as [[o|]|]; [|done..].
    destruct (rest ref); [done|]. destruct (is_Namable o); done.
  - intros attribute. unfold interpolate_key, mbind, M_bind, bind, getitem.
    destruct (Dict.get _ _) as [[o|]|]; [|done..].
    rewrite scopes_run. simpl. by destruct (obj_interpolate _).
  - apply Hint.
  - assert (∀ σ0 : store, extends σ0 σ0) as Hrefl.
    { intros σ0. exists []. by rewrite app_nil_r. }
    intros [other|v]; [|apply Hrefl]. unfold __eq__.
    destruct (negb _); [apply Hrefl|].
    unfold mbind, M_bind, bind.
    pose proof (Hint self σ) as H1.
    destruct (interpolate self σ) as [[si|e] σ1]; [|done].
    pose proof (Hint other σ1) as H2.
    destruct (interpolate other σ1) as [[oi|e] σ2]; simpl in *;
      by etrans.
Qed.

End reading_facts.

(** ** Attribute access *)

Section attribute_facts.
Context {OM : ObjectModel}.
Implicit Types (cls : StructClass) (σ : store).

Lemma substring_all (s : string) : String.substring 0 (String.length s) s = s.
Proof. induction s as [|c s IH]; simpl; [done|by rewrite IH]. Qed.

Lemma has_prefix (x : string) :
  String.prefix "has_" ("has_" +:+ x) = true ∧ drop4 ("has_" +:+ x) = x.
Proof.
  split.
  - cbv [String.append]. simpl. by destruct x.
  - unfold drop4. cbv [String.append]. simpl. rewrite Nat.sub_0_r.
    apply substring_all.
Qed.

(** X14: [__getattr__] answers [has_x] for a field [x] with the presence
    test of [x], also when the schema has a field called [has_x], which is
    then out of reach; any other field name gets the reader of that field;
    a name that is neither raises [AttributeError] naming the class and the
    attribute.  The presence test of a field that is [Empty] is false, that
    of a present field is the comparison of its value with [Empty]; it
    changes nothing. *)
Theorem getattr_dispatch (ne_Empty : Obj → bool) σ (self : Structural) :
  wf σ self →
  (∀ x, x ∈ Dict.keys (TYPEMAP (__class__ self)) →
     __getattr__ self ("has_" +:+ x) = Return (has_accessor x))
  ∧ (∀ attr, attr ∈ Dict.keys (TYPEMAP (__class__ self)) →
       String.prefix "has_" attr = false
       ∨ drop4 attr ∉ Dict.keys (TYPEMAP (__class__ self)) →
       __getattr__ self attr = Return (key_accessor attr))
  ∧ (∀ attr, attr ∉ Dict.keys (TYPEMAP (__class__ self)) →
       String.prefix "has_" attr = false
       ∨ drop4 attr ∉ Dict.keys (TYPEMAP (__class__ self)) →
       __getattr__ self attr
       = Raise (AttributeError (__name__ (__class__ self)
                                +:+ " has no attribute " +:+ attr)))
  ∧ (∀ x, x ∈ Dict.keys (TYPEMAP (__class__ self)) →
       ∃ v, Dict.get x (deref σ (_value self)) = Some v
            ∧ call_accessor ne_Empty self (has_accessor x) σ
              = (Return (inl (match v with
                              | None => false
                              | Some o => ne_Empty o
                              end)), σ)).
Proof.
  intros Hwf. unfold __getattr__. split_and!.
  - intros x Hx. destruct (has_prefix x) as [-> ->].
    apply mem_keys in Hx. by rewrite Hx.
  - intros attr Hin Hno.
    assert (String.prefix "has_" attr
            && Dict.mem (drop4 attr) (TYPEMAP (__class__ self)) = false) as ->.
    { destruct Hno as [->|Hno]; [done|]. apply andb_false_intro2.
      apply not_true_is_false. by rewrite mem_keys. }
    apply mem_keys in Hin. by rewrite Hin.
  - intros attr Hattr Hno.
    assert (String.prefix "has_" attr
            && Dict.mem (drop4 attr) (TYPEMAP (__class__ self)) = false) as ->.
    { destruct Hno as [->|Hno]; [done|]. apply andb_false_intro2.
      apply not_true_is_false. by rewrite mem_keys. }
    assert (Dict.mem attr (TYPEMAP (__class__ self)) = false) as ->; [|done].
    apply not_true_is_false. by rewrite mem_keys.
  - intros x Hx.
    apply (wf_schema_keys _ _ _ Hwf), get_Some_keys in Hx as [v Hv].
    exists v. split; [done|].
    unfold call_accessor, mbind, M_bind, bind. by rewrite (getitem_run _ _ _ _ Hv).
Qed.

End attribute_facts.

(** ** More on equality *)

Section equality_facts.
Context {OM : ObjectModel}.
Implicit Types (cls : StructClass) (σ : store) (d : list (string * option Obj)).

(** The comparison of two composites: unequal schemas give [False]; on
    equal schemas the two are interpolated, the receiver first, and the
    error of an interpolation is that of the comparison. *)
Lemma eq_run `{!ObjectLaws} σ (self other : Structural) :
  wf σ self → well_typed (__class__ self) (deref σ (_value self)) →
  wf σ other → well_typed (__class__ other) (deref σ (_value other)) →
  (__eq__ self (AStructural other) σ).1
  = if same_schema self other then
      match keyword_error (Dict.keys (TYPEMAP (__class__ self))),
            keyword_error (Dict.keys (TYPEMAP (__class__ other))) with
      | Some e, _ => Raise e
      | None, Some e => Raise e
      | None, None =>
          Return (dict_eq default_eq
                    (interpolation self (deref σ (_value self)))
                    (interpolation other (deref σ (_value other))))
      end
    else Return false.
Proof.
  intros Hwf Htyped Hwf' Htyped'. unfold __eq__. fold (same_schema self other).
  destruct (same_schema self other); [|done]. simpl.
  unfold mbind, M_bind, bind.
  destruct (interpolate_outcome σ self (wf_NoDup _ _ Hwf)) as (σ1 & _ & _ & Hrun1).
  rewrite (interpolated_eq σ self Hwf Htyped) in Hrun1.
  destruct (keyword_error (Dict.keys (TYPEMAP (__class__ self)))) as [e|].
  { by rewrite Hrun1. }
  destruct Hrun1 as [Hrun1 ->]. rewrite Hrun1. cbv beta iota.
  set (I1 := interpolation self (deref σ (_value self))).
  assert (extends σ (σ ++ [I1])) as Hext1 by (by exists [I1]).
  pose proof (wf_extends _ _ _ Hwf' Hext1) as Hwf1.
  destruct (interpolate_outcome (σ ++ [I1]) other (wf_NoDup _ _ Hwf1))
    as (σ2 & _ & _ & Hrun2).
  rewrite (interpolated_eq (σ ++ [I1]) other Hwf1
             (well_typed_extends _ _ _ Hwf' Hext1 Htyped')) in Hrun2.
  rewrite (deref_extends _ _ _ Hext1 (wf_allocated _ _ Hwf')) in Hrun2.
  destruct (keyword_error (Dict.keys (TYPEMAP (__class__ other)))) as [e|].
  { by rewrite Hrun2. }
  destruct Hrun2 as [Hrun2 ->]. rewrite Hrun2. cbv beta iota.
  set (I2 := interpolation other (deref σ (_value other))).
  unfold items, ret. simpl.
  assert (deref ((σ ++ [I1]) ++ [I2]) (length σ) = I1) as ->.
  { unfold deref. rewrite lookup_app_l by (rewrite length_app; simpl; lia).
    by rewrite lookup_app_r, Nat.sub_diag. }
  assert (deref ((σ ++ [I1]) ++ [I2]) (length (σ ++ [I1])) = I2) as ->; [|done].
  apply deref_snoc.
Qed.








(** X19: equality compares the schemas and not the classes: a composite
    whose class has another name and the same [TYPEMAP] compares as the
    original does, on either side. *)
Theorem eq_ignores_class_name `{!ObjectLaws} σ (self other : Structural)
  (name : string) :
  wf σ self → well_typed (__class__ self) (deref σ (_value self)) →
  wf σ other → well_typed (__class__ other) (deref σ (_value other)) →
  (__eq__ self
     (AStructural (MkStructural (MkStructClass name (TYPEMAP (__class__ other)))
                     (_value other) (_scopes other))) σ).1
  = (__eq__ self (AStructural other) σ).1
  ∧ (__eq__ (MkStructural (MkStructClass name (TYPEMAP (__class__ other)))
               (_value other) (_scopes other)) (AStructural self) σ).1
    = (__eq__ other (AStructural self) σ).1.
Proof.
  intros Hwf Htyped Hwf' Htyped'.
  set (other' := MkStructural (MkStructClass name (TYPEMAP (__class__ other)))
                   (_value other) (_scopes other)).
  assert (wf σ other') as Hwf2 by (by destruct Hwf'; split).
  assert (well_typed (__class__ other') (deref σ (_value other'))) as Htyped2.
  { done. }
  by rewrite !eq_run.
Qed.

End equality_facts.

(** ** The further properties on concrete values *)

Module MustacheExtras.
Import Mustache MustacheMore.



Lemma model_typed σ (self : Structural) :
  wf σ self → well_typed (__class__ self) (deref σ (_value self)).
Proof.
  intros Hwf name o Hget.
  assert (is_Some (Dict.get name (TYPEMAP (__class__ self)))) as [sig ->].
  { apply get_Some_keys, (wf_schema_keys σ self name Hwf), get_Some_keys.
    by eexists. }
  by exists sig.
Qed.

Lemma wf_store (σ : list (list (string * option (@Obj model)))) (self : Structural) :
  bool_decide (_value self < length σ) = true →
  bool_decide (list_to_set (C:=gset string) (Dict.keys (deref σ (_value self)))
               = list_to_set (Dict.keys (TYPEMAP (__class__ self)))) = true →
  bool_decide (NoDup (Dict.keys (deref σ (_value self)))) = true →
  wf σ self.
Proof.
  intros H1%bool_decide_eq_true H2%bool_decide_eq_true H3%bool_decide_eq_true.
  by split.
Qed.

Lemma init_default_witness :
  @TypeSignature_init model StringType false (@PyRaw model [Lit "x"])
  = Return default_x
  ∧ signature_ok default_x.
Proof.
  destruct (@init_default model _ StringType false (@PyRaw model [Lit "x"]))
    as (_ & _ & Hwrap & Hsig & _).
  assert (@TypeSignature_init model StringType false (@PyRaw model [Lit "x"])
          = Return default_x) as Hinit.
  { by rewrite (Hwrap (inl [Lit "x"]) eq_refl). }
  split; [done|].
  by destruct (Hsig default_x Hinit) as (_ & _ & Hok & _).
Defined.

Lemma deserialize_outcome_witness :
  deserialize (serialize default_x) registry = Return default_x.
Proof. exact (deserialize_outcome (serialize default_x) registry). Defined.

Lemma unsupplied_field_witness :
  Dict.get "last" (deref anonymous_store 0) = Some (Some (MkString [Lit "doe"] []))
  ∧ ∃ msg, check anonymous anonymous_store = (Return (failure msg), anonymous_store).
Proof.
  assert (Structural_new Employee [] [] [] = (Return anonymous, anonymous_store))
    as Hnew by done.
  split; [done|].
  destruct (@unsupplied_field model _ Employee [] [] [] anonymous anonymous_store "first"
              (@MkTypeSignature model StringType true None))
    as (_ & Hreq & _); [by apply (bool_decide_unpack _)|done|done| |].
  { by intros ?%elem_of_nil. }
  by destruct (Hreq (StringType : @Klazz model) eq_refl) as [_ ?].
Defined.

Lemma create_typemap_witness :
  StructFactory_create registry "Pair" (attributes_to_parameters (TYPEMAP Pair))
  = Return Pair
  ∧ class_ok Pair.
Proof.
  split; [done|].
  destruct (@create_typemap model _ registry "Pair" (attributes_to_parameters (TYPEMAP Pair)))
    as [Hret _].
  by destruct (Hret Pair eq_refl) as (_ & Hok & _).
Defined.

Lemma type_parameters_round_trip_witness :
  ∃ cls, StructFactory_create registry (type_parameters Employee).1
           (type_parameters Employee).2 = Return cls
    ∧ dict_eq TypeSignature_eq (TYPEMAP Employee) (TYPEMAP cls) = true.
Proof.
  destruct (@type_parameters_round_trip model _ registry Employee)
    as (cls & Hcls & _ & _ & Heq).
  - by apply (bool_decide_unpack _).
  - repeat constructor; try apply MustacheFacts.String_round_trips;
      by intros ? [= <-].
  - by exists cls.
Defined.

Lemma unapply_fields_witness :
  Dict.get "a" (unapply (deref pairs_store 0)) = Some [Var "b"]
  ∧ Dict.keys (unapply (deref anonymous_store 0)) = ["last"].
Proof.
  destruct (@unapply_fields model (deref pairs_store 0)) as (Hget & _).
  - by apply (bool_decide_unpack _).
  - split; [apply (Hget "a")|done].
Defined.


Lemma construction_is_update_witness :
  match Structural_new Pair [Mapping a_is_x] b_is_y [],
        __call__ blank (mappings [Mapping a_is_x] ++ b_is_y) blank_store with
  | (Return s, σ'), (Return s', σ'') =>
      __class__ s = __class__ s' ∧ deref σ' (_value s) = deref σ'' (_value s')
  | (Raise e, _), (Raise e', _) => e = e'
  | _, _ => False
  end.
Proof.
  apply (@construction_is_update model Pair [Mapping a_is_x] b_is_y [] blank blank_store).
  - by repeat constructor.
  - by apply (bool_decide_unpack _).
  - reflexivity.
Defined.

Lemma update_fields_witness :
  Dict.get "b" (deref loop_a_store (_value loop_a))
  = Dict.get "b" (deref loop_store (_value loop))
  ∧ ∃ v, Dict.get "a" (deref loop_a_store (_value loop_a)) = Some v.
Proof.
  destruct (@update_fields model loop a_is_x loop_store loop_a loop_a_store eq_refl)
    as (Hfield & _).
  split; [exact (Hfield "b")|].
  destruct (Hfield "a") as (v & _ & Hv). by exists v.
Defined.

Lemma strict_agrees_witness :
  json_loads Pair (JsonObject only_a) false [] = json_loads Pair (JsonObject only_a) true [].
Proof.
  destruct (@strict_agrees model Pair only_a []) as [Hagree _].
  - by apply (bool_decide_unpack _).
  - destruct Hagree as (_ & Hloads & _); [|done].
    intros k Hk. apply list_elem_of_singleton in Hk as ->. simpl. set_solver.
Defined.


Lemma getattr_dispatch_witness :
  __getattr__ pair_ref "has_a" = Return (has_accessor "a")
  ∧ __getattr__ pair_ref "a" = Return (key_accessor "a")
  ∧ __getattr__ pair_ref "c" = Raise (AttributeError "Pair has no attribute c").
Proof.
  destruct (@getattr_dispatch model (λ _, true) pairs_store pair_ref MustacheFacts.wf_pair_ref)
    as (Hhas & Hkey & Hnone & _).
  split_and!.
  - apply (Hhas "a"). simpl. set_solver.
  - apply (Hkey "a"); [simpl; set_solver|by left].
  - apply (Hnone "c"); [simpl; set_solver|by left].
Defined.



Lemma eq_ignores_class_name_witness :
  (__eq__ pair_ref
     (AStructural (MkStructural (MkStructClass "Couple" (TYPEMAP Pair)) 1 []))
     pairs_store).1
  = (__eq__ pair_ref (AStructural pair_lit) pairs_store).1.
Proof.
  by destruct (@eq_ignores_class_name model _ pairs_store pair_ref pair_lit "Couple"
                 MustacheFacts.wf_pair_ref (model_typed _ _ MustacheFacts.wf_pair_ref)
                 MustacheFacts.wf_pair_lit (model_typed _ _ MustacheFacts.wf_pair_lit))
    as [H _].
Defined.

End MustacheExtras.
